(** * Adler-32, AVX-512 VNNI kernel (arch/x86/adler32_avx512_vnni.c)

    A shallow embedding of [adler32_avx512_vnni] and of the vector
    instructions it is written with, and the proofs that the kernel computes
    the sequential Adler-32 recurrence.

    Conventions.
    - [uint32_t], [size_t] and [int] values are integers of [Z]; a 32-bit
      lane result goes through [wrap], which is reduction modulo 2^32 on the
      machine.
    - A [__m512i] is the list of its sixteen 32-bit lanes, lane 0 first; the
      byte and quadword views of the register are computed from the lanes,
      little-endian.
    - A [const unsigned char *] is [NULL] or the bytes from the pointer on;
      [buf += n] drops [n] bytes. *)

From Stdlib Require Import ZArith List Lia Bool.
From Stdlib.Strings Require Import Byte.
From Equations Require Import Equations.
Import ListNotations.

Local Open Scope Z_scope.

Ltac Zify.zify_post_hook ::= Z.to_euclidean_division_equations.

(** ** Constants of adler32_p.h *)

(** Modelled from the spec: the constant [BASE] of adler32_p.h, "the modulus
    (65521) bounding both running sums", the largest prime below 2^16. *)
Definition BASE : Z := 65521.

(** Modelled from the spec: the constant [NMAX] of adler32_p.h, the maximum
    number of bytes that may be accumulated before a modulo reduction is
    mandatory, chosen so that the worst case (all bytes 0xFF) cannot overflow
    a 32-bit accumulator: the largest [n] with
    [255 * n * (n + 1) / 2 + (n + 1) * (BASE - 1) <= 2^32 - 1]. *)
Definition NMAX : Z := 5552.

(** ** The sequential definition *)

Definition byte_val (b : byte) : Z := Z.of_N (Byte.to_N b).

(** One byte of the sequential recurrence:
    [sum1 = (sum1 + b) mod BASE; sum2 = (sum2 + sum1) mod BASE]. *)
Definition adler_step (st : Z * Z) (b : byte) : Z * Z :=
  let s1 := (fst st + byte_val b) mod BASE in
  (s1, (snd st + s1) mod BASE).

Definition adler_fold (st : Z * Z) (bs : list byte) : Z * Z :=
  fold_left adler_step bs st.

(** The packed checksum, [sum2 << 16 | sum1]. *)
Definition pack (st : Z * Z) : Z :=
  Z.lor (fst st) (Z.shiftl (snd st) 16).

(** The component sums of a packed checksum, as the kernel splits it:
    [sum2 = (adler >> 16) & 0xffff; adler &= 0xffff]. *)
Definition unpack (adler : Z) : Z * Z :=
  (Z.land adler 0xffff, Z.land (Z.shiftr adler 16) 0xffff).

Definition valid_state (st : Z * Z) : Prop :=
  0 <= fst st < BASE /\ 0 <= snd st < BASE.

(** The sums as lines 34-35 split them off a packed checksum: sixteen bits
    each, reduced modulo [BASE] or not. *)
Definition split_state (st : Z * Z) : Prop :=
  0 <= fst st < 2 ^ 16 /\ 0 <= snd st < 2 ^ 16.

(** The recurrence without the reductions, over the integers. *)
Definition sum_step (st : Z * Z) (b : byte) : Z * Z :=
  (fst st + byte_val b, snd st + (fst st + byte_val b)).

Definition sum_fold (st : Z * Z) (bs : list byte) : Z * Z :=
  fold_left sum_step bs st.

(** ** Pointers *)

Inductive ptr : Type :=
| NULL
| Ptr (bytes : list byte).

(** The bytes readable from a pointer.  Reading through [NULL] or past the
    end of the buffer is undefined in C; the model reads zero bytes there and
    every theorem about values read assumes the buffer is long enough. *)
Definition mem (p : ptr) : list byte :=
  match p with NULL => [] | Ptr bs => bs end.

Definition ptr_add (p : ptr) (n : Z) : ptr :=
  match p with NULL => NULL | Ptr bs => Ptr (skipn (Z.to_nat n) bs) end.

Definition is_null (p : ptr) : bool :=
  match p with NULL => true | Ptr _ => false end.

(** ** Vector registers *)

Definition m128i := list Z.
Definition m512i := list Z.

(** The width of a lane result.  The machine keeps the low 32 bits; the
    [ideal] arithmetic keeps the integer, and is what the machine is compared
    with when the absence of overflow is stated. *)
Class LaneArith := wrap : Z -> Z.

#[export] Instance machine : LaneArith := fun x => x mod 2 ^ 32.

Definition ideal : LaneArith := fun x => x.

Fixpoint zip_with {A B C} (f : A -> B -> C) (l : list A) (m : list B) : list C :=
  match l, m with
  | x :: l', y :: m' => f x y :: zip_with f l' m'
  | _, _ => []
  end.

Definition lane (v : m512i) (j : nat) : Z := nth j v 0.

(** Byte [i] of a register, unsigned ([epu8]) and signed ([epi8]). *)
Definition epu8 (v : m512i) (i : nat) : Z :=
  (lane v (i / 4)%nat / 2 ^ (8 * Z.of_nat (i mod 4)%nat)) mod 256.

Definition epi8 (v : m512i) (i : nat) : Z :=
  let u := epu8 v i in if u <? 128 then u else u - 256.

(** The register holding the given bytes, byte 0 first (missing bytes are 0). *)
Definition of_bytes (lanes : nat) (bs : list Z) : list Z :=
  map (fun j => nth (4 * j)%nat bs 0
                + 2 ^ 8 * nth (4 * j + 1)%nat bs 0
                + 2 ^ 16 * nth (4 * j + 2)%nat bs 0
                + 2 ^ 24 * nth (4 * j + 3)%nat bs 0)
      (seq 0 lanes).

Fixpoint sum_list (l : list Z) : Z :=
  match l with
  | [] => 0
  | x :: l' => x + sum_list l'
  end.

(** ** The instructions *)

Definition _mm512_setzero_si512 : m512i := repeat 0 16%nat.

(** [_mm_cvtsi32_si128 a]: [a] in lane 0, the upper lanes zero. *)
Definition _mm_cvtsi32_si128 (a : Z) : m128i := [a; 0; 0; 0].

(** [_mm512_zextsi128_si512 a]: the 128 bits of [a], zero extended. *)
Definition _mm512_zextsi128_si512 (a : m128i) : m512i := a ++ repeat 0 12%nat.

(** [_mm512_set_epi8 e63 ... e0]: the arguments are the bytes of the
    register from the highest to the lowest. *)
Definition _mm512_set_epi8 (es : list Z) : m512i :=
  of_bytes 16 (map (fun e => e mod 256) (rev es)).

(** [_mm512_loadu_si512 p]: the 64 bytes at [p]. *)
Definition _mm512_loadu_si512 (p : ptr) : m512i :=
  of_bytes 16 (map byte_val (firstn 64 (mem p))).

(** [_mm512_sad_epu8 a b]: for each of the eight quadwords, the sum of the
    absolute differences of its eight bytes, zero extended to 64 bits. *)
Definition _mm512_sad_epu8 (a b : m512i) : m512i :=
  flat_map
    (fun j =>
       let q := sum_list (map (fun i => Z.abs (epu8 a (8 * j + i)%nat - epu8 b (8 * j + i)%nat))
                              (seq 0 8)) in
       [q mod 2 ^ 32; q / 2 ^ 32])
    (seq 0 8).

Section Lanes.
Context {L : LaneArith}.

(** [_mm512_add_epi32 a b]: lane-wise sum. *)
Definition _mm512_add_epi32 (a b : m512i) : m512i :=
  zip_with (fun x y => wrap (x + y)) a b.

(** [_mm512_slli_epi32 a imm8]: each lane shifted left, zeros shifted in. *)
Definition _mm512_slli_epi32 (a : m512i) (imm8 : Z) : m512i :=
  map (fun x => wrap (Z.shiftl x imm8)) a.

(** [_mm512_dpbusd_epi32 src a b]: to each lane of [src], add the four
    products of the unsigned bytes of [a] with the signed bytes of [b] in
    that lane (no saturation). *)
Definition _mm512_dpbusd_epi32 (src a b : m512i) : m512i :=
  zip_with
    (fun s j =>
       wrap (s + sum_list (map (fun i => epu8 a (4 * j + i)%nat * epi8 b (4 * j + i)%nat)
                               (seq 0 4))))
    src (seq 0 16).

(** Modelled from the spec: [_mm512_reduce_add_epu32] of
    adler32_avx512_p.h, the full horizontal sum of the sixteen lanes of the
    weighted accumulator, as a [uint32_t]. *)
Definition _mm512_reduce_add_epu32 (x : m512i) : Z :=
  fold_left (fun acc y => wrap (acc + y)) x 0.

(** Modelled from the spec: [partial_hsum] of adler32_avx512_p.h, the
    partial horizontal sum of the byte-sum accumulator: only the lanes the
    sum of absolute differences writes (the low half of each quadword, the
    even lanes) are added, as a [uint32_t]. *)
Definition partial_hsum (x : m512i) : Z :=
  fold_left (fun acc j => wrap (acc + lane x (2 * j)%nat)) (seq 0 8) 0.
End Lanes.

Definition zero : m512i := _mm512_setzero_si512.

Definition dot2v : m512i :=
  _mm512_set_epi8
    [1; 2; 3; 4; 5; 6; 7; 8; 9; 10; 11; 12; 13; 14; 15; 16; 17; 18; 19;
     20; 21; 22; 23; 24; 25; 26; 27; 28; 29; 30; 31; 32; 33; 34; 35; 36; 37;
     38; 39; 40; 41; 42; 43; 44; 45; 46; 47; 48; 49; 50; 51; 52; 53; 54; 55;
     56; 57; 58; 59; 60; 61; 62; 63; 64].

(** ** The kernel *)

(** The variables of [adler32_avx512_vnni]. *)
Record vars : Type := Vars {
  adler : Z;
  sum2 : Z;
  buf : ptr;
  len : Z;
  k : Z;
  vs1 : m512i;
  vs2 : m512i;
  vs1_0 : m512i;
  vs3 : m512i;
  vs2_1 : m512i
}.

Section Kernel.
Context {L : LaneArith}.

(** Lines 69-75: the length of the chunk and the chunk's fresh
    accumulators. *)
Definition chunk_begin (st : vars) : vars :=
  let k := if len st <? NMAX then len st else NMAX in
  let k := k - Z.rem k 64 in
  {| adler := adler st; sum2 := sum2 st; buf := buf st;
     len := len st - k;
     k := k;
     vs1 := vs1 st; vs2 := vs2 st;
     vs1_0 := vs1 st;
     vs3 := _mm512_setzero_si512;
     vs2_1 := _mm512_setzero_si512 |}.

(** Lines 79-89: remainder peeling. *)
Definition peel (st : vars) : vars :=
  if Z.rem (k st) 128 =? 0 then st else
  let vbuf1 := _mm512_loadu_si512 (buf st) in
  let vs1_sad := _mm512_sad_epu8 vbuf1 zero in
  let vs1' := _mm512_add_epi32 (vs1 st) vs1_sad in
  {| adler := adler st; sum2 := sum2 st;
     buf := ptr_add (buf st) 64;
     len := len st;
     k := k st - 64;
     vs1 := vs1';
     vs2 := _mm512_dpbusd_epi32 (vs2 st) vbuf1 dot2v;
     vs1_0 := vs1';
     vs3 := _mm512_add_epi32 (vs3 st) (vs1_0 st);
     vs2_1 := vs2_1 st |}.

(** Lines 102-107: the first sub-block of an unrolled iteration. *)
Definition unrolled_first (vbuf0 : m512i) (st : vars) : vars :=
  let vs1_sad := _mm512_sad_epu8 vbuf0 zero in
  {| adler := adler st; sum2 := sum2 st; buf := buf st; len := len st;
     k := k st;
     vs1 := _mm512_add_epi32 (vs1 st) vs1_sad;
     vs2 := _mm512_dpbusd_epi32 (vs2 st) vbuf0 dot2v;
     vs1_0 := vs1_0 st;
     vs3 := _mm512_add_epi32 (vs3 st) (vs1_0 st);
     vs2_1 := vs2_1 st |}.

(** Lines 109-113: the second sub-block of an unrolled iteration. *)
Definition unrolled_second (vbuf1 : m512i) (st : vars) : vars :=
  let vs3' := _mm512_add_epi32 (vs3 st) (vs1 st) in
  let vs1_sad := _mm512_sad_epu8 vbuf1 zero in
  let vs1' := _mm512_add_epi32 (vs1 st) vs1_sad in
  {| adler := adler st; sum2 := sum2 st; buf := buf st; len := len st;
     k := k st;
     vs1 := vs1';
     vs2 := vs2 st;
     vs1_0 := vs1';
     vs3 := vs3';
     vs2_1 := _mm512_dpbusd_epi32 (vs2_1 st) vbuf1 dot2v |}.

(** Lines 97-100: the loads and the pointer and counter updates of an
    unrolled iteration. *)
Definition advance128 (st : vars) : vars :=
  {| adler := adler st; sum2 := sum2 st;
     buf := ptr_add (buf st) 128;
     len := len st;
     k := k st - 128;
     vs1 := vs1 st; vs2 := vs2 st; vs1_0 := vs1_0 st; vs3 := vs3 st;
     vs2_1 := vs2_1 st |}.

Definition unrolled_iter (st : vars) : vars :=
  let vbuf0 := _mm512_loadu_si512 (buf st) in
  let vbuf1 := _mm512_loadu_si512 (ptr_add (buf st) 64) in
  unrolled_second vbuf1 (unrolled_first vbuf0 (advance128 st)).

(** Lines 92-114: [while (k >= 128)]. *)
Equations? unrolled_loop (st : vars) : vars by wf (Z.to_nat (k st)) lt :=
  unrolled_loop st with Z_ge_dec (k st) 128 => {
    | left _ => unrolled_loop (unrolled_iter st);
    | right _ => st }.
Proof. simpl. lia. Qed.

(** The states an unrolled loop goes through: after the first and after the
    second sub-block of every iteration.  Each accumulator is assigned at
    most once between two of them. *)
Equations? unrolled_trace (st : vars) : list vars by wf (Z.to_nat (k st)) lt :=
unrolled_trace st with Z_ge_dec (k st) 128 => {
  | left _ =>
      unrolled_first (_mm512_loadu_si512 (buf st)) (advance128 st)
      :: unrolled_iter st
      :: unrolled_trace (unrolled_iter st);
  | right _ => [] }.
Proof. simpl. lia. Qed.

(** Line 116. *)
Definition finish_shift (st : vars) : vars :=
  {| adler := adler st; sum2 := sum2 st; buf := buf st; len := len st;
     k := k st; vs1 := vs1 st; vs2 := vs2 st; vs1_0 := vs1_0 st;
     vs3 := _mm512_slli_epi32 (vs3 st) 6;
     vs2_1 := vs2_1 st |}.

(** Line 117. *)
Definition finish_carry (st : vars) : vars :=
  {| adler := adler st; sum2 := sum2 st; buf := buf st; len := len st;
     k := k st; vs1 := vs1 st;
     vs2 := _mm512_add_epi32 (vs2 st) (vs3 st);
     vs1_0 := vs1_0 st; vs3 := vs3 st; vs2_1 := vs2_1 st |}.

(** Line 118. *)
Definition finish_second (st : vars) : vars :=
  {| adler := adler st; sum2 := sum2 st; buf := buf st; len := len st;
     k := k st; vs1 := vs1 st;
     vs2 := _mm512_add_epi32 (vs2 st) (vs2_1 st);
     vs1_0 := vs1_0 st; vs3 := vs3 st; vs2_1 := vs2_1 st |}.

Definition finish (st : vars) : vars :=
  finish_second (finish_carry (finish_shift st)).

(** Lines 120-123: the horizontal reductions, the reductions modulo
    [BASE], and the accumulators of the next chunk. *)
Definition reduce (st : vars) : vars :=
  let adler' := partial_hsum (vs1 st) mod BASE in
  let sum2' := _mm512_reduce_add_epu32 (vs2 st) mod BASE in
  {| adler := adler'; sum2 := sum2'; buf := buf st; len := len st;
     k := k st;
     vs1 := _mm512_zextsi128_si512 (_mm_cvtsi32_si128 adler');
     vs2 := _mm512_zextsi128_si512 (_mm_cvtsi32_si128 sum2');
     vs1_0 := vs1_0 st; vs3 := vs3 st; vs2_1 := vs2_1 st |}.

(** The sub-blocks of a chunk: the peeled one and the unrolled loop. *)
Definition sub_blocks (st : vars) : vars := unrolled_loop (peel st).

(** Lines 69-123: the body of the outer loop. *)
Definition chunk (st : vars) : vars :=
  reduce (finish (sub_blocks (chunk_begin st))).
(** The states a chunk goes through, from its first line to the last
    vector addition of line 118. *)
Definition chunk_trace (st : vars) : list vars :=
  let s0 := chunk_begin st in
  let s1 := peel s0 in
  let s2 := unrolled_loop s1 in
  s0 :: s1 :: unrolled_trace s1
  ++ [finish_shift s2; finish_carry (finish_shift s2); finish s2].

(** The chunk length of lines 69-70. *)
Definition chunk_len (len : Z) : Z :=
  let k := if len <? NMAX then len else NMAX in
  k - Z.rem k 64.

(** Lines 68-124: [while (len >= 64)]. *)
Equations? (noind) chunk_loop (st : vars) : vars by wf (Z.to_nat (len st)) lt :=
chunk_loop st with Z_ge_dec (len st) 64 => {
  | left _ => chunk_loop (chunk st);
  | right _ => st }.
Proof.
  assert (Hloop : forall s, len (unrolled_loop s) = len s).
  { clear. intros s. funelim (unrolled_loop s); [rewrite H|]; reflexivity. }
  assert (El : len (chunk st) = len st - chunk_len (len st)).
  { unfold chunk, sub_blocks. cbn [len reduce finish finish_second finish_carry
      finish_shift]. rewrite Hloop. unfold peel.
    destruct (Z.rem _ 128 =? 0); reflexivity. }
  enough (Hg : (Z.to_nat (len (chunk st)) < Z.to_nat (len st))%nat) by exact Hg.
  rewrite El. unfold chunk_len, NMAX. destruct (len st <? 5552); lia.
Qed.

End Kernel.


(** ** Build configuration and entry point *)

(** The preprocessor symbols the function is compiled under. *)
Record build : Type := Build {
  X86_SSE41_ADLER32 : bool;
  X86_AVX2_ADLER32 : bool
}.

(** The variables at line 58, before the outer loop. *)
Definition init_vars (adler sum2 : Z) (buf : ptr) (len : Z) : vars :=
  {| adler := adler; sum2 := sum2; buf := buf; len := len;
     k := 0;
     vs1 := _mm512_zextsi128_si512 (_mm_cvtsi32_si128 adler);
     vs2 := _mm512_zextsi128_si512 (_mm_cvtsi32_si128 sum2);
     vs1_0 := zero; vs3 := zero; vs2_1 := zero |}.

Section Entry.
Context {L : LaneArith}.

(** The narrower kernels and the scalar routines of adler32_p.h, which the
    function calls and this file does not define. *)
Variable adler32_sse41 : Z -> ptr -> Z -> Z.
Variable adler32_avx2 : Z -> ptr -> Z -> Z.
Variable adler32_len_1 : Z -> ptr -> Z -> Z.
Variable adler32_len_16 : Z -> ptr -> Z -> Z -> Z.

Variable cfg : build.

(** Lines 53-127: the vector loop and the tail. *)
Definition vector_path (adler0 sum2_0 : Z) (buf0 : ptr) (len0 : Z) : Z :=
  let st := chunk_loop (init_vars adler0 sum2_0 buf0 len0) in
  adler32_len_16 (adler st) (buf st) (len st) (sum2 st).

Definition adler32_avx512_vnni (adler : Z) (buf : ptr) (len : Z) : Z :=
  if X86_SSE41_ADLER32 cfg && (len <? 32) then adler32_sse41 adler buf len
  else if X86_AVX2_ADLER32 cfg && (len <? 64) then adler32_avx2 adler buf len
  else
    let sum2 := Z.land (Z.shiftr adler 16) 0xffff in
    let adler := Z.land adler 0xffff in
    if negb (X86_AVX2_ADLER32 cfg) && negb (X86_SSE41_ADLER32 cfg) then
      if len =? 1 then adler32_len_1 adler buf sum2
      else if is_null buf then 1
      else if len <? 16 then adler32_len_16 adler buf len sum2
      else vector_path adler sum2 buf len
    else vector_path adler sum2 buf len.
End Entry.

(** Modelled from the spec: the scalar tail handler [adler32_len_16] of
    adler32_p.h, "scalar/minimal-width finisher, same contract": the
    sequential recurrence over the [len] bytes at [buf], from the state
    given. *)
Definition tail_checksum (adler : Z) (buf : ptr) (len : Z) (sum2 : Z) : Z :=
  pack (adler_fold (adler, sum2) (firstn (Z.to_nat len) (mem buf))).

(** Modelled from the spec: [adler32_len_1] of adler32_p.h, the tail handler
    at length 1. *)
Definition tail_checksum_1 (adler : Z) (buf : ptr) (sum2 : Z) : Z :=
  tail_checksum adler buf 1 sum2.

(** Modelled from the spec: the narrower sibling kernels [adler32_sse41] and
    [adler32_avx2], "mid-width fallback kernel, same contract". *)
Definition narrow_checksum (adler : Z) (buf : ptr) (len : Z) : Z :=
  pack (adler_fold (unpack adler) (firstn (Z.to_nat len) (mem buf))).

Definition vnni (cfg : build) : Z -> ptr -> Z -> Z :=
  adler32_avx512_vnni narrow_checksum narrow_checksum tail_checksum_1 tail_checksum cfg.

Definition no_narrow : build := {| X86_SSE41_ADLER32 := false; X86_AVX2_ADLER32 := false |}.
Definition all_narrow : build := {| X86_SSE41_ADLER32 := true; X86_AVX2_ADLER32 := true |}.

Definition wikipedia : list byte :=
  [x57; x69; x6b; x69; x70; x65; x64; x69; x61]%byte.

(** ** Definitions for the statements

    What the proofs and the statements below are phrased with: the vectors the
    instructions add, predicates on lanes and states, the chunk processed one
    sub-block at a time, and the contract of the delegated routines. *)

(** The quadword sums of [_mm512_sad_epu8 a zero]: the sums of the bytes of
    [a], eight at a time, in the even lanes; the odd lanes are zero. *)
Definition byte_sums (a : m512i) : m512i :=
  flat_map (fun j => [sum_list (map (fun i => epu8 a (8 * j + i)%nat) (seq 0 8)); 0])
           (seq 0 8).

(** The products that [_mm512_dpbusd_epi32] adds to lane [j]. *)
Definition dp_lane (a b : m512i) (j : nat) : Z :=
  sum_list (map (fun i => epu8 a (4 * j + i)%nat * epi8 b (4 * j + i)%nat) (seq 0 4)).

Definition dp (a b : m512i) : m512i := map (dp_lane a b) (seq 0 16).

Definition lanes_le (b : Z) (v : m512i) : Prop := Forall (fun x => 0 <= x <= b) v.

(** Every lane fits its 32 bits. *)
Definition lanes_in_range (v : m512i) : Prop := lanes_le (2 ^ 32 - 1) v.

Definition accs_in_range (st : vars) : Prop :=
  lanes_in_range (vs1 st) /\ lanes_in_range (vs2 st) /\ lanes_in_range (vs1_0 st)
  /\ lanes_in_range (vs3 st) /\ lanes_in_range (vs2_1 st).

(** The lanes after [j] sub-blocks of a chunk entered with sums at most [a]
    and [c]. *)
Definition bounds (a c j : Z) (st : vars) : Prop :=
  lanes_le (a + 2040 * j) (vs1 st) /\ lanes_le (c + 65280 * j) (vs2 st)
  /\ lanes_le (a + 2040 * j) (vs1_0 st) /\ lanes_le (j * (a + 2040 * j)) (vs3 st)
  /\ lanes_le (65280 * j) (vs2_1 st).

(** The sum of the even lanes, which is what [partial_hsum] adds. *)
Definition even_sum (v : m512i) : Z :=
  sum_list (map (fun j => lane v (2 * j)%nat) (seq 0 8)).

(** After the bytes [P] of a chunk entered with sums [a] and [c]: the lanes
    of the byte-sum accumulator add up to [sum1], its odd lanes carry
    nothing, and the weighted accumulators with 64 times the carry add up to
    [sum2], both before reduction. *)
Definition totals (a c : Z) (P : list byte) (st : vars) : Prop :=
  (length (vs1 st) = 16 /\ length (vs2 st) = 16 /\ length (vs3 st) = 16
   /\ length (vs2_1 st) = 16)%nat
  /\ even_sum (vs1 st) = sum_list (vs1 st)
  /\ sum_list (vs1 st) = fst (sum_fold (a, c) P)
  /\ sum_list (vs2 st) + sum_list (vs2_1 st) + 64 * sum_list (vs3 st)
     = snd (sum_fold (a, c) P).

(** The accumulators at the head of the outer loop hold the scalar sums in
    lane 0 and nothing else. *)
Definition at_head (st : vars) : Prop :=
  vs1 st = _mm512_zextsi128_si512 (_mm_cvtsi32_si128 (adler st))
  /\ vs2 st = _mm512_zextsi128_si512 (_mm_cvtsi32_si128 (sum2 st)).

(** The registers loaded from the [m] sub-blocks at [p]. *)
Definition sub_block_regs (p : ptr) (m : nat) : list m512i :=
  map (fun j => _mm512_loadu_si512 (ptr_add p (64 * Z.of_nat j))) (seq 0 m).

(** One sub-block on the byte-sum, weighted and carry accumulators: the
    previous byte sum goes to the carry, the bytes to the byte sum, the
    weighted bytes to the weighted accumulator. *)
Definition one_sub_block (acc : m512i * m512i * m512i) (vbuf : m512i)
  : m512i * m512i * m512i :=
  let '(s1, s2, s3) := acc in
  (_mm512_add_epi32 s1 (_mm512_sad_epu8 vbuf zero),
   _mm512_dpbusd_epi32 s2 vbuf dot2v,
   _mm512_add_epi32 s3 s1).

(** A chunk processed one sub-block at a time, in order: the carry scaled by
    the sub-block width and folded into the weighted accumulator, then the
    horizontal sums, reduced modulo [BASE]. *)
Definition chunk_one_at_a_time (st : vars) : Z * Z :=
  let m := Z.to_nat (chunk_len (len st) / 64) in
  let '(s1, s2, s3) :=
    fold_left one_sub_block (sub_block_regs (buf st) m) (vs1 st, vs2 st, zero) in
  let s2 := _mm512_add_epi32 s2 (_mm512_slli_epi32 s3 6) in
  (partial_hsum s1 mod BASE, _mm512_reduce_add_epu32 s2 mod BASE).

(** The values of the byte-sum accumulator before each sub-block. *)
Fixpoint byte_sums_before (s1 : m512i) (bl : list m512i) : list m512i :=
  match bl with
  | [] => []
  | vbuf :: bl' =>
      s1 :: byte_sums_before (_mm512_add_epi32 s1 (_mm512_sad_epu8 vbuf zero)) bl'
  end.

(** A narrower kernel on lengths below [bound]: the sequential recurrence
    from the packed state. *)
Definition narrow_contract (bound : Z) (f : Z -> ptr -> Z -> Z) : Prop :=
  forall (adler : Z) (B : list byte) (n : Z),
    valid_state (unpack adler) -> 0 <= n < bound -> n <= Z.of_nat (length B) ->
    f adler (Ptr B) n = pack (adler_fold (unpack adler) (firstn (Z.to_nat n) B)).

(** [adler32_len_1]: the recurrence on one byte. *)
Definition len_1_contract (f : Z -> ptr -> Z -> Z) : Prop :=
  forall (s1 s2 : Z) (B : list byte),
    valid_state (s1, s2) -> 1 <= Z.of_nat (length B) ->
    f s1 (Ptr B) s2 = pack (adler_fold (s1, s2) (firstn 1 B)).

(** [adler32_len_16], the tail handler, on the lengths below one sub-block. *)
Definition tail_contract (f : Z -> ptr -> Z -> Z -> Z) : Prop :=
  forall (s1 s2 : Z) (B : list byte) (n : Z),
    valid_state (s1, s2) -> 0 <= n < 64 -> n <= Z.of_nat (length B) ->
    f s1 (Ptr B) n s2 = pack (adler_fold (s1, s2) (firstn (Z.to_nat n) B)).

(** Sixteen lanes, the odd ones zero. *)
Definition odd_zero (v : m512i) : Prop :=
  length v = 16%nat /\ forall j : nat, (j < 8)%nat -> lane v (2 * j + 1) = 0.

(** The number of chunks of a call on [n] bytes: the full chunks, taken
    while [NMAX] bytes or more remain, and one more if 64 bytes or more are
    left after them. *)
Definition chunk_count (n : Z) : nat :=
  let full := if n <? NMAX then 0 else (n - NMAX) / 5504 + 1 in
  let r := n - 5504 * full in
  Nat.add (Z.to_nat full) (if 64 <=? r then 1%nat else 0%nat).

(** A caller that feeds a buffer piece by piece, each call starting from
    the checksum the previous call returned. *)
Fixpoint feed (f : Z -> ptr -> Z -> Z) (adler : Z) (p : ptr) (sizes : list Z) : Z :=
  match sizes with
  | [] => adler
  | n :: rest => feed f (f adler p n) (ptr_add p n) rest
  end.

(** The bytes of the [j]-th sub-block of [B], each weighted by [64 - i], [i]
    its offset within the sub-block. *)
Definition weighted_bytes (B : list byte) (j : nat) : Z :=
  sum_list (map (fun i => byte_val (nth (64 * j + i) B x00) * (64 - Z.of_nat i))
                (seq 0 64)).

(** ** Arithmetic and list lemmas *)

Lemma byte_val_range (b : byte) : 0 <= byte_val b < 256.
Proof.
  unfold byte_val. pose proof (Byte.to_N_bounded b). lia.
Qed.

Lemma zip_with_length {A B C} (f : A -> B -> C) (l : list A) (m : list B) :
  length l = length m -> length (zip_with f l m) = length l.
Proof.
  revert m. induction l as [|x l IH]; intros [|y m] H; simpl in *; try congruence.
  f_equal. apply IH. congruence.
Qed.

Lemma zip_with_map {A B C D} (g : C -> D) (f : A -> B -> C) (l : list A) (m : list B) :
  map g (zip_with f l m) = zip_with (fun x y => g (f x y)) l m.
Proof.
  revert m. induction l as [|x l IH]; intros [|y m]; simpl; try reflexivity.
  f_equal. apply IH.
Qed.

Lemma sum_list_cons (x : Z) (l : list Z) : sum_list (x :: l) = x + sum_list l.
Proof. reflexivity. Qed.

Lemma sum_list_app (l m : list Z) : sum_list (l ++ m) = sum_list l + sum_list m.
Proof.
  induction l as [|x l IH]; simpl; lia.
Qed.

Lemma sum_list_zip_add (l m : list Z) :
  length l = length m ->
  sum_list (zip_with Z.add l m) = sum_list l + sum_list m.
Proof.
  revert m. induction l as [|x l IH]; intros [|y m] H; simpl in *; try congruence.
  rewrite IH by congruence. lia.
Qed.

Lemma nth_in_range (bs : list Z) (i : nat) :
  Forall (fun b => 0 <= b < 256) bs -> 0 <= nth i bs 0 < 256.
Proof.
  intros H. destruct (Nat.lt_ge_cases i (length bs)) as [Hi|Hi].
  - rewrite Forall_forall in H. apply H. apply nth_In. exact Hi.
  - rewrite nth_overflow by exact Hi. lia.
Qed.

Lemma le32_byte (b0 b1 b2 b3 : Z) (m : nat) :
  0 <= b0 < 256 -> 0 <= b1 < 256 -> 0 <= b2 < 256 -> 0 <= b3 < 256 ->
  (m < 4)%nat ->
  ((b0 + 2 ^ 8 * b1 + 2 ^ 16 * b2 + 2 ^ 24 * b3) / 2 ^ (8 * Z.of_nat m)) mod 256
  = nth m [b0; b1; b2; b3] 0.
Proof.
  intros H0 H1 H2 H3 Hm.
  destruct m as [|[|[|[|m]]]]; try lia; cbn -[Z.div Z.modulo Z.mul Z.add]; lia.
Qed.

Lemma nth_map_seq {A} (f : nat -> A) (n j : nat) (d : A) :
  (j < n)%nat -> nth j (map f (seq 0 n)) d = f j.
Proof.
  intros H.
  rewrite (nth_indep _ d (f 0%nat)) by (rewrite length_map, length_seq; exact H).
  rewrite map_nth, seq_nth by exact H. reflexivity.
Qed.

(** The byte view of a register built from bytes gives the bytes back. *)
Lemma epu8_of_bytes (lanes : nat) (bs : list Z) (i : nat) :
  Forall (fun b => 0 <= b < 256) bs ->
  (i < 4 * lanes)%nat ->
  epu8 (of_bytes lanes bs) i = nth i bs 0.
Proof.
  intros Hbs Hi. unfold epu8, lane, of_bytes.
  assert (Hj : (i / 4 < lanes)%nat) by (apply Nat.Div0.div_lt_upper_bound; lia).
  rewrite nth_map_seq by exact Hj.
  pose proof (Nat.div_mod_eq i 4) as E.
  assert (Hm : (i mod 4 < 4)%nat) by (apply Nat.mod_upper_bound; lia).
  remember (i / 4)%nat as j eqn:Ej. remember (i mod 4)%nat as m eqn:Em.
  clear Ej Em Hj Hi. subst i.
  rewrite le32_byte by (try apply nth_in_range; assumption).
  destruct m as [|[|[|[|m]]]]; try lia; cbn [nth]; f_equal; lia.
Qed.

(** ** The instructions on the bytes of a sub-block *)

Lemma epu8_range (v : m512i) (i : nat) : 0 <= epu8 v i < 256.
Proof. unfold epu8. apply Z.mod_pos_bound. lia. Qed.

Lemma epu8_zero (i : nat) : epu8 zero i = 0.
Proof.
  unfold epu8, lane, zero, _mm512_setzero_si512.
  rewrite nth_repeat, Zdiv_0_l. reflexivity.
Qed.

Lemma epu8_load (p : ptr) (i : nat) :
  (i < 64)%nat ->
  epu8 (_mm512_loadu_si512 p) i = nth i (map byte_val (firstn 64 (mem p))) 0.
Proof.
  intros Hi. unfold _mm512_loadu_si512. apply epu8_of_bytes; [|lia].
  apply Forall_map, Forall_forall. intros b _. apply byte_val_range.
Qed.

Lemma epi8_dot2v (i : nat) : (i < 64)%nat -> epi8 dot2v i = 64 - Z.of_nat i.
Proof.
  intros Hi.
  assert (E : map (epi8 dot2v) (seq 0 64) = map (fun i => 64 - Z.of_nat i) (seq 0 64))
    by (vm_compute; reflexivity).
  apply (f_equal (fun l => nth i l 0)) in E.
  rewrite !nth_map_seq in E by exact Hi. exact E.
Qed.

Lemma sum_list_bounds (b : Z) (l : list Z) :
  Forall (fun x => 0 <= x <= b) l -> 0 <= sum_list l <= b * Z.of_nat (length l).
Proof.
  induction 1 as [|x l Hx _ IH]; simpl sum_list; simpl length; lia.
Qed.

Lemma sad_zero (a : m512i) : _mm512_sad_epu8 a zero = byte_sums a.
Proof.
  unfold _mm512_sad_epu8, byte_sums. apply flat_map_ext. intros j.
  assert (E : map (fun i => Z.abs (epu8 a (8 * j + i) - epu8 zero (8 * j + i))) (seq 0 8)
              = map (fun i => epu8 a (8 * j + i)%nat) (seq 0 8)).
  { apply map_ext. intros i. rewrite epu8_zero.
    pose proof (epu8_range a (8 * j + i)). lia. }
  rewrite E.
  assert (B : Forall (fun x => 0 <= x <= 255)
                     (map (fun i => epu8 a (8 * j + i)%nat) (seq 0 8))).
  { apply Forall_map, Forall_forall. intros i _.
    pose proof (epu8_range a (8 * j + i)). lia. }
  apply sum_list_bounds in B. rewrite length_map, length_seq in B.
  cbv zeta. rewrite Z.mod_small, Z.div_small by lia. reflexivity.
Qed.

Lemma zip_with_map_r {A B C D} (f : A -> C -> D) (g : B -> C) (l : list A) (m : list B) :
  zip_with (fun x y => f x (g y)) l m = zip_with f l (map g m).
Proof.
  revert m. induction l as [|x l IH]; intros [|y m]; simpl; try reflexivity.
  f_equal. apply IH.
Qed.

Lemma dpbusd_add {L : LaneArith} (src a b : m512i) :
  _mm512_dpbusd_epi32 src a b = _mm512_add_epi32 src (dp a b).
Proof.
  unfold _mm512_dpbusd_epi32, _mm512_add_epi32, dp.
  rewrite <- (zip_with_map_r (fun x y => wrap (x + y)) (dp_lane a b)). reflexivity.
Qed.

Lemma byte_sums_length (a : m512i) : length (byte_sums a) = 16%nat.
Proof. reflexivity. Qed.

Lemma dp_length (a b : m512i) : length (dp a b) = 16%nat.
Proof. reflexivity. Qed.

Lemma byte_sums_bounds (a : m512i) : Forall (fun x => 0 <= x <= 2040) (byte_sums a).
Proof.
  unfold byte_sums. apply Forall_flat_map, Forall_forall. intros j _.
  assert (B : Forall (fun x => 0 <= x <= 255)
                     (map (fun i => epu8 a (8 * j + i)%nat) (seq 0 8))).
  { apply Forall_map, Forall_forall. intros i _.
    pose proof (epu8_range a (8 * j + i)). lia. }
  apply sum_list_bounds in B. rewrite length_map, length_seq in B.
  repeat constructor; lia.
Qed.

Lemma dp_dot2v_bounds (a : m512i) : Forall (fun x => 0 <= x <= 65280) (dp a dot2v).
Proof.
  unfold dp. apply Forall_map, Forall_forall. intros j Hj.
  apply in_seq in Hj. unfold dp_lane.
  assert (B : Forall (fun x => 0 <= x <= 16320)
                (map (fun i => epu8 a (4 * j + i)%nat * epi8 dot2v (4 * j + i)%nat) (seq 0 4))).
  { apply Forall_map, Forall_forall. intros i Hi. apply in_seq in Hi.
    rewrite epi8_dot2v by lia.
    pose proof (epu8_range a (4 * j + i)). nia. }
  apply sum_list_bounds in B. rewrite length_map, length_seq in B. lia.
Qed.

(** ** One sub-block against the sequential sums *)

Lemma sum_fold_cons (st : Z * Z) (b : byte) (bs : list byte) :
  sum_fold st (b :: bs) = sum_fold (sum_step st b) bs.
Proof. reflexivity. Qed.

Lemma sum_fold_app (st : Z * Z) (bs cs : list byte) :
  sum_fold st (bs ++ cs) = sum_fold (sum_fold st bs) cs.
Proof. unfold sum_fold. apply fold_left_app. Qed.

(** The sums are affine in the state they start from. *)
Lemma sum_fold_shift (a c : Z) (bs : list byte) :
  sum_fold (a, c) bs
  = (a + fst (sum_fold (0, 0) bs),
     c + Z.of_nat (length bs) * a + snd (sum_fold (0, 0) bs)).
Proof.
  revert a c. induction bs as [|b bs IH]; intros a c.
  - simpl. f_equal; lia.
  - rewrite !sum_fold_cons. unfold sum_step. simpl fst. simpl snd.
    rewrite IH. rewrite (IH (0 + byte_val b)). simpl fst. simpl snd.
    f_equal; simpl length; lia.
Qed.

Lemma sum_fold_bounds (bs : list byte) :
  0 <= fst (sum_fold (0, 0) bs) <= 255 * Z.of_nat (length bs) /\
  0 <= 2 * snd (sum_fold (0, 0) bs)
    <= 255 * Z.of_nat (length bs) * (Z.of_nat (length bs) + 1).
Proof.
  induction bs as [|b bs IH].
  - simpl. lia.
  - rewrite sum_fold_cons. unfold sum_step. simpl fst. simpl snd.
    rewrite sum_fold_shift. simpl fst. simpl snd.
    pose proof (byte_val_range b). simpl length. nia.
Qed.

Lemma firstn_64_cases (bs : list byte) :
  (64 <= length bs)%nat ->
  exists x0 x1 x2 x3 x4 x5 x6 x7 x8 x9 x10 x11 x12 x13 x14 x15
         x16 x17 x18 x19 x20 x21 x22 x23 x24 x25 x26 x27 x28 x29 x30 x31
         x32 x33 x34 x35 x36 x37 x38 x39 x40 x41 x42 x43 x44 x45 x46 x47
         x48 x49 x50 x51 x52 x53 x54 x55 x56 x57 x58 x59 x60 x61 x62 x63,
    firstn 64 bs =
    [x0; x1; x2; x3; x4; x5; x6; x7; x8; x9; x10; x11; x12; x13; x14; x15;
     x16; x17; x18; x19; x20; x21; x22; x23; x24; x25; x26; x27; x28; x29; x30; x31;
     x32; x33; x34; x35; x36; x37; x38; x39; x40; x41; x42; x43; x44; x45; x46; x47;
     x48; x49; x50; x51; x52; x53; x54; x55; x56; x57; x58; x59; x60; x61; x62; x63].
Proof.
  intros H.
  do 64 (destruct bs as [|? bs]; [simpl in H; lia|]).
  repeat eexists.
Qed.

Ltac explicit_sub_block p H :=
  let E := fresh "E" in
  destruct (firstn_64_cases (mem p) H)
    as (x0 & x1 & x2 & x3 & x4 & x5 & x6 & x7 & x8 & x9 & x10 & x11 & x12 & x13
        & x14 & x15 & x16 & x17 & x18 & x19 & x20 & x21 & x22 & x23 & x24 & x25
        & x26 & x27 & x28 & x29 & x30 & x31 & x32 & x33 & x34 & x35 & x36 & x37
        & x38 & x39 & x40 & x41 & x42 & x43 & x44 & x45 & x46 & x47 & x48 & x49
        & x50 & x51 & x52 & x53 & x54 & x55 & x56 & x57 & x58 & x59 & x60 & x61
        & x62 & x63 & E).

(** The byte sums of a loaded sub-block add up to its [sum1] increment. *)
Lemma byte_sums_load (p : ptr) :
  (64 <= length (mem p))%nat ->
  sum_list (byte_sums (_mm512_loadu_si512 p))
  = fst (sum_fold (0, 0) (firstn 64 (mem p))).
Proof.
  intros H. unfold byte_sums.
  cbn [flat_map seq map sum_list app Nat.mul Nat.add].
  rewrite !epu8_load by lia.
  explicit_sub_block p H. rewrite E.
  cbn [nth map sum_fold fold_left sum_step fst snd]. lia.
Qed.

(** The weighted products of a loaded sub-block add up to its [sum2]
    increment. *)
Lemma dp_load (p : ptr) :
  (64 <= length (mem p))%nat ->
  sum_list (dp (_mm512_loadu_si512 p) dot2v)
  = snd (sum_fold (0, 0) (firstn 64 (mem p))).
Proof.
  intros H. unfold dp, dp_lane.
  cbn [flat_map seq map sum_list app Nat.mul Nat.add].
  rewrite !epu8_load by lia.
  rewrite !epi8_dot2v by lia.
  explicit_sub_block p H. rewrite E.
  cbn [nth map sum_fold fold_left sum_step fst snd]. lia.
Qed.

(** ** The loops, unfolded once *)

Lemma unrolled_loop_len {L : LaneArith} (st : vars) : len (unrolled_loop st) = len st.
Proof.
  funelim (unrolled_loop st).
  - rewrite H. reflexivity.
  - reflexivity.
Qed.

Lemma chunk_len_eq {L : LaneArith} (st : vars) : len (chunk st) = len st - chunk_len (len st).
Proof.
  unfold chunk, sub_blocks. simpl. rewrite unrolled_loop_len.
  unfold peel. destruct (Z.rem _ 128 =? 0); reflexivity.
Qed.

Lemma chunk_decreases {L : LaneArith} (st : vars) :
  len st >= 64 -> (Z.to_nat (len (chunk st)) < Z.to_nat (len st))%nat.
Proof.
  intros H. rewrite chunk_len_eq. unfold chunk_len, NMAX.
  destruct (len st <? 5552) eqn:E; lia.
Qed.

Lemma unrolled_loop_eq {L : LaneArith} (st : vars) :
  unrolled_loop st
  = if 128 <=? k st then unrolled_loop (unrolled_iter st) else st.
Proof.
  rewrite unrolled_loop_equation_1.
  destruct (Z_ge_dec (k st) 128) as [H|H]; simpl.
  - destruct (Z.leb_spec 128 (k st)); [reflexivity | lia].
  - destruct (Z.leb_spec 128 (k st)); [lia | reflexivity].
Qed.

Lemma unrolled_trace_eq {L : LaneArith} (st : vars) :
  unrolled_trace st
  = if 128 <=? k st
    then unrolled_first (_mm512_loadu_si512 (buf st)) (advance128 st)
         :: unrolled_iter st :: unrolled_trace (unrolled_iter st)
    else [].
Proof.
  rewrite unrolled_trace_equation_1.
  destruct (Z_ge_dec (k st) 128) as [H|H]; simpl.
  - destruct (Z.leb_spec 128 (k st)); [reflexivity | lia].
  - destruct (Z.leb_spec 128 (k st)); [lia | reflexivity].
Qed.

Lemma chunk_loop_eq {L : LaneArith} (st : vars) :
  chunk_loop st = if 64 <=? len st then chunk_loop (chunk st) else st.
Proof.
  rewrite chunk_loop_equation_1.
  destruct (Z_ge_dec (len st) 64) as [H|H]; simpl.
  - destruct (Z.leb_spec 64 (len st)); [reflexivity | lia].
  - destruct (Z.leb_spec 64 (len st)); [lia | reflexivity].
Qed.

(** ** Lane bounds in the ideal arithmetic *)

Lemma lanes_le_mono (b b' : Z) (v : m512i) :
  b <= b' -> lanes_le b v -> lanes_le b' v.
Proof.
  intros Hb H. unfold lanes_le in *. eapply Forall_impl; [|exact H].
  simpl. intros x Hx. lia.
Qed.

Lemma add_ideal (a b : m512i) : _mm512_add_epi32 (L := ideal) a b = zip_with Z.add a b.
Proof. reflexivity. Qed.

Lemma lanes_le_add (x y : Z) (a b : m512i) :
  lanes_le x a -> lanes_le y b -> lanes_le (x + y) (_mm512_add_epi32 (L := ideal) a b).
Proof.
  rewrite add_ideal. unfold lanes_le. intros Ha. revert b.
  induction Ha as [|u a Hu _ IH]; intros b Hb; simpl; [constructor|].
  destruct Hb as [|w b Hw Hb]; constructor; [lia | apply IH; exact Hb].
Qed.

Lemma lanes_le_add_to (z x y : Z) (a b : m512i) :
  lanes_le x a -> lanes_le y b -> x + y <= z ->
  lanes_le z (_mm512_add_epi32 (L := ideal) a b).
Proof.
  intros Ha Hb Hz. eapply lanes_le_mono; [exact Hz|]. apply lanes_le_add; assumption.
Qed.

Lemma lanes_le_byte_sums (a : m512i) : lanes_le 2040 (byte_sums a).
Proof. apply byte_sums_bounds. Qed.

Lemma lanes_le_dp (a : m512i) : lanes_le 65280 (dp a dot2v).
Proof. apply dp_dot2v_bounds. Qed.

Lemma bounds_mono (a c j j' : Z) (st : vars) :
  0 <= a -> 0 <= j <= j' -> bounds a c j st -> bounds a c j' st.
Proof.
  intros Ha Hj (H1 & H2 & H3 & H4 & H5).
  repeat split; (eapply lanes_le_mono; [|eassumption]); nia.
Qed.

Lemma bounds_advance128 (a c j : Z) (st : vars) :
  bounds a c j st -> bounds a c j (advance128 st).
Proof. intros H. exact H. Qed.

Lemma bounds_first (a c j : Z) (v : m512i) (st : vars) :
  0 <= a -> 0 <= j -> bounds a c j st ->
  bounds a c (j + 1) (unrolled_first (L := ideal) v st).
Proof.
  intros Ha Hj (H1 & H2 & H3 & H4 & H5).
  unfold bounds, unrolled_first. cbn [vs1 vs2 vs1_0 vs3 vs2_1].
  rewrite sad_zero, dpbusd_add. repeat split.
  - eapply lanes_le_add_to; [exact H1 | apply lanes_le_byte_sums | lia].
  - eapply lanes_le_add_to; [exact H2 | apply lanes_le_dp | lia].
  - eapply lanes_le_mono; [|exact H3]. lia.
  - eapply lanes_le_add_to; [exact H4 | exact H3 | nia].
  - eapply lanes_le_mono; [|exact H5]. lia.
Qed.

Lemma bounds_second (a c j : Z) (v : m512i) (st : vars) :
  0 <= a -> 0 <= j -> bounds a c j st ->
  bounds a c (j + 1) (unrolled_second (L := ideal) v st).
Proof.
  intros Ha Hj (H1 & H2 & H3 & H4 & H5).
  unfold bounds, unrolled_second. cbn [vs1 vs2 vs1_0 vs3 vs2_1].
  rewrite sad_zero, dpbusd_add. repeat split.
  - eapply lanes_le_add_to; [exact H1 | apply lanes_le_byte_sums | lia].
  - eapply lanes_le_mono; [|exact H2]. lia.
  - eapply lanes_le_add_to; [exact H1 | apply lanes_le_byte_sums | lia].
  - eapply lanes_le_add_to; [exact H4 | exact H1 | nia].
  - eapply lanes_le_add_to; [exact H5 | apply lanes_le_dp | lia].
Qed.

Lemma bounds_peel (a c j : Z) (st : vars) :
  0 <= a -> 0 <= j -> bounds a c j st ->
  bounds a c (j + 1) (peel (L := ideal) st).
Proof.
  intros Ha Hj H. unfold peel. destruct (Z.rem (k st) 128 =? 0).
  - apply (bounds_mono a c j); [lia | lia | exact H].
  - destruct H as (H1 & H2 & H3 & H4 & H5).
    unfold bounds. cbn [vs1 vs2 vs1_0 vs3 vs2_1].
    rewrite sad_zero, dpbusd_add. repeat split.
    + eapply lanes_le_add_to; [exact H1 | apply lanes_le_byte_sums | lia].
    + eapply lanes_le_add_to; [exact H2 | apply lanes_le_dp | lia].
    + eapply lanes_le_add_to; [exact H1 | apply lanes_le_byte_sums | lia].
    + eapply lanes_le_add_to; [exact H4 | exact H3 | nia].
    + eapply lanes_le_mono; [|exact H5]. lia.
Qed.

Lemma k_unrolled_iter {L : LaneArith} (st : vars) : k (unrolled_iter st) = k st - 128.
Proof. reflexivity. Qed.

Lemma bounds_unrolled (a c : Z) (n : nat) :
  forall (j : Z) (st : vars),
    0 <= a -> 0 <= j -> k st = 128 * Z.of_nat n -> bounds a c j st ->
    bounds a c (j + 2 * Z.of_nat n) (unrolled_loop (L := ideal) st)
    /\ Forall (bounds a c (j + 2 * Z.of_nat n)) (unrolled_trace (L := ideal) st).
Proof.
  induction n as [|n IH]; intros j st Ha Hj Hk H;
    rewrite unrolled_loop_eq, unrolled_trace_eq.
  - destruct (Z.leb_spec 128 (k st)); [lia|].
    split; [|constructor]. apply (bounds_mono a c j); [lia | lia | exact H].
  - destruct (Z.leb_spec 128 (k st)); [|lia].
    pose proof (bounds_first a c j (_mm512_loadu_si512 (buf st)) _ Ha Hj
                  (bounds_advance128 _ _ _ _ H)) as B1.
    pose proof (bounds_second a c (j + 1)
                  (_mm512_loadu_si512 (ptr_add (buf st) 64)) _ Ha ltac:(lia) B1) as B2.
    fold (unrolled_iter (L := ideal) st) in B2.
    destruct (IH (j + 1 + 1) (unrolled_iter (L := ideal) st) Ha ltac:(lia)) as [I1 I2].
    + rewrite k_unrolled_iter. lia.
    + exact B2.
    + replace (j + 2 * Z.of_nat (S n)) with (j + 1 + 1 + 2 * Z.of_nat n) by lia.
      split; [exact I1|].
      constructor; [|constructor; [|exact I2]].
      * apply (bounds_mono a c (j + 1)); [lia | lia | exact B1].
      * apply (bounds_mono a c (j + 1 + 1)); [lia | lia | exact B2].
Qed.

(** ** The machine arithmetic where no lane overflows *)

Lemma map_fixed {A} (f : A -> A) (l : list A) :
  Forall (fun x => f x = x) l -> map f l = l.
Proof.
  induction 1 as [|x l Hx _ IH]; simpl; [reflexivity|]. rewrite Hx, IH. reflexivity.
Qed.

Lemma wrap_in_range (v : m512i) :
  lanes_in_range v -> map (wrap (LaneArith := machine)) v = v.
Proof.
  intros H. apply map_fixed. eapply Forall_impl; [|exact H].
  simpl. intros x Hx. unfold wrap, machine. apply Z.mod_small. lia.
Qed.

Lemma add_machine (a b : m512i) :
  lanes_in_range (_mm512_add_epi32 (L := ideal) a b) ->
  _mm512_add_epi32 (L := machine) a b = _mm512_add_epi32 (L := ideal) a b.
Proof.
  intros H. rewrite <- (wrap_in_range _ H).
  rewrite add_ideal, zip_with_map. reflexivity.
Qed.

Lemma dpbusd_machine (src a b : m512i) :
  lanes_in_range (_mm512_dpbusd_epi32 (L := ideal) src a b) ->
  _mm512_dpbusd_epi32 (L := machine) src a b = _mm512_dpbusd_epi32 (L := ideal) src a b.
Proof. rewrite !dpbusd_add. apply add_machine. Qed.

Lemma slli_machine (a : m512i) (n : Z) :
  lanes_in_range (_mm512_slli_epi32 (L := ideal) a n) ->
  _mm512_slli_epi32 (L := machine) a n = _mm512_slli_epi32 (L := ideal) a n.
Proof.
  intros H. rewrite <- (wrap_in_range _ H).
  unfold _mm512_slli_epi32. rewrite map_map. reflexivity.
Qed.

Lemma first_machine (v : m512i) (st : vars) :
  accs_in_range (unrolled_first (L := ideal) v st) ->
  unrolled_first (L := machine) v st = unrolled_first (L := ideal) v st.
Proof.
  intros (H1 & H2 & H3 & H4 & H5). unfold unrolled_first in *.
  cbn [vs1 vs2 vs1_0 vs3 vs2_1] in *.
  rewrite add_machine, dpbusd_machine, add_machine by assumption. reflexivity.
Qed.

Lemma second_machine (v : m512i) (st : vars) :
  accs_in_range (unrolled_second (L := ideal) v st) ->
  unrolled_second (L := machine) v st = unrolled_second (L := ideal) v st.
Proof.
  intros (H1 & H2 & H3 & H4 & H5). unfold unrolled_second in *.
  cbn [vs1 vs2 vs1_0 vs3 vs2_1] in *.
  rewrite add_machine, dpbusd_machine, add_machine by assumption. reflexivity.
Qed.

Lemma peel_machine (st : vars) :
  accs_in_range (peel (L := ideal) st) ->
  peel (L := machine) st = peel (L := ideal) st.
Proof.
  unfold peel. destruct (Z.rem (k st) 128 =? 0); [reflexivity|].
  intros (H1 & H2 & H3 & H4 & H5). cbn [vs1 vs2 vs1_0 vs3 vs2_1] in *.
  rewrite add_machine, dpbusd_machine, add_machine by assumption. reflexivity.
Qed.

Lemma finish_shift_machine (st : vars) :
  accs_in_range (finish_shift (L := ideal) st) ->
  finish_shift (L := machine) st = finish_shift (L := ideal) st.
Proof.
  intros (H1 & H2 & H3 & H4 & H5). unfold finish_shift in *.
  cbn [vs1 vs2 vs1_0 vs3 vs2_1] in *.
  rewrite slli_machine by assumption. reflexivity.
Qed.

Lemma finish_carry_machine (st : vars) :
  accs_in_range (finish_carry (L := ideal) st) ->
  finish_carry (L := machine) st = finish_carry (L := ideal) st.
Proof.
  intros (H1 & H2 & H3 & H4 & H5). unfold finish_carry in *.
  cbn [vs1 vs2 vs1_0 vs3 vs2_1] in *.
  rewrite add_machine by assumption. reflexivity.
Qed.

Lemma finish_second_machine (st : vars) :
  accs_in_range (finish_second (L := ideal) st) ->
  finish_second (L := machine) st = finish_second (L := ideal) st.
Proof.
  intros (H1 & H2 & H3 & H4 & H5). unfold finish_second in *.
  cbn [vs1 vs2 vs1_0 vs3 vs2_1] in *.
  rewrite add_machine by assumption. reflexivity.
Qed.

Lemma unrolled_machine (n : nat) :
  forall st : vars,
    k st = 128 * Z.of_nat n ->
    Forall accs_in_range (unrolled_trace (L := ideal) st) ->
    unrolled_trace (L := machine) st = unrolled_trace (L := ideal) st
    /\ unrolled_loop (L := machine) st = unrolled_loop (L := ideal) st.
Proof.
  induction n as [|n IH]; intros st Hk;
    rewrite (unrolled_loop_eq (L := machine)), (unrolled_loop_eq (L := ideal)),
            (unrolled_trace_eq (L := machine)), (unrolled_trace_eq (L := ideal)).
  - destruct (Z.leb_spec 128 (k st)); [lia|]. intros _. split; reflexivity.
  - destruct (Z.leb_spec 128 (k st)); [|lia]. intros HF.
    inversion HF as [|s1 t1 R1 H']; subst. inversion H' as [|s2 t2 R2 H'']; subst.
    assert (E : unrolled_iter (L := machine) st = unrolled_iter (L := ideal) st).
    { unfold unrolled_iter in *. rewrite (first_machine _ _ R1).
      apply second_machine. exact R2. }
    rewrite (first_machine _ _ R1), E.
    destruct (IH (unrolled_iter (L := ideal) st)) as [I1 I2];
      [rewrite k_unrolled_iter; lia | exact H'' |].
    rewrite I1, I2. split; reflexivity.
Qed.

(** ** The sums of the lanes in the ideal arithmetic *)

Lemma mem_ptr_add (p : ptr) (n : Z) : mem (ptr_add p n) = skipn (Z.to_nat n) (mem p).
Proof. destruct p; simpl; [rewrite skipn_nil|]; reflexivity. Qed.

Lemma ptr_add_add (p : ptr) (n m : Z) :
  0 <= n -> 0 <= m -> ptr_add (ptr_add p n) m = ptr_add p (n + m).
Proof.
  intros Hn Hm. destruct p; simpl; [reflexivity|].
  rewrite skipn_skipn. do 2 f_equal. lia.
Qed.

Lemma ptr_add_0 (p : ptr) : ptr_add p 0 = p.
Proof. destruct p; reflexivity. Qed.

Lemma firstn_plus {A} (n m : nat) (l : list A) :
  firstn (n + m) l = firstn n l ++ firstn m (skipn n l).
Proof.
  revert l. induction n as [|n IH]; intros [|x l]; simpl; try reflexivity.
  - rewrite firstn_nil. reflexivity.
  - rewrite IH. reflexivity.
Qed.

Lemma lane_add (a b : m512i) (i : nat) :
  length a = length b ->
  lane (zip_with Z.add a b) i = lane a i + lane b i.
Proof.
  unfold lane. revert b i.
  induction a as [|x a IH]; intros [|y b] i H; simpl in H; try congruence.
  - destruct i; reflexivity.
  - destruct i; simpl; [reflexivity | apply IH; congruence].
Qed.

Lemma even_sum_add (a b : m512i) :
  length a = length b ->
  even_sum (zip_with Z.add a b) = even_sum a + even_sum b.
Proof.
  intros H. unfold even_sum. cbn [seq map sum_list].
  rewrite !lane_add by exact H. lia.
Qed.

Lemma even_sum_pairs (f : nat -> Z) :
  even_sum (flat_map (fun j => [f j; 0]) (seq 0 8))
  = sum_list (flat_map (fun j => [f j; 0]) (seq 0 8)).
Proof. unfold even_sum, lane. cbn. lia. Qed.

Lemma even_sum_byte_sums (a : m512i) : even_sum (byte_sums a) = sum_list (byte_sums a).
Proof. unfold byte_sums. apply even_sum_pairs. Qed.

Lemma length_add_ideal (a b : m512i) :
  length a = 16%nat -> length b = 16%nat ->
  length (_mm512_add_epi32 (L := ideal) a b) = 16%nat.
Proof.
  intros Ha Hb. rewrite add_ideal, zip_with_length; congruence.
Qed.

Lemma sum_add_ideal (a b : m512i) :
  length a = 16%nat -> length b = 16%nat ->
  sum_list (_mm512_add_epi32 (L := ideal) a b) = sum_list a + sum_list b.
Proof.
  intros Ha Hb. rewrite add_ideal, sum_list_zip_add; congruence.
Qed.

Lemma even_add_ideal (a b : m512i) :
  length a = 16%nat -> length b = 16%nat ->
  even_sum (_mm512_add_epi32 (L := ideal) a b) = even_sum a + even_sum b.
Proof.
  intros Ha Hb. rewrite add_ideal, even_sum_add; congruence.
Qed.

Lemma firstn_64_length (p : ptr) :
  (64 <= length (mem p))%nat -> length (firstn 64 (mem p)) = 64%nat.
Proof. intros H. rewrite length_firstn. lia. Qed.

(** One sub-block more, for the three places a sub-block is consumed. *)
Lemma totals_first (a c : Z) (P : list byte) (p : ptr) (st : vars) :
  (64 <= length (mem p))%nat ->
  vs1_0 st = vs1 st ->
  totals a c P st ->
  totals a c (P ++ firstn 64 (mem p))
         (unrolled_first (L := ideal) (_mm512_loadu_si512 p) st).
Proof.
  intros Hp H0 ((L1 & L2 & L3 & L4) & E & S1 & S2).
  unfold totals, unrolled_first. cbn [vs1 vs2 vs1_0 vs3 vs2_1].
  rewrite sad_zero, dpbusd_add, H0.
  rewrite !length_add_ideal, !sum_add_ideal, even_add_ideal
    by auto using byte_sums_length, dp_length.
  rewrite even_sum_byte_sums, byte_sums_load, dp_load by exact Hp.
  rewrite sum_fold_app, (surjective_pairing (sum_fold (a, c) P)).
  rewrite (sum_fold_shift (fst (sum_fold (a, c) P))).
  rewrite firstn_64_length by exact Hp. cbn [fst snd].
  repeat split; try assumption; lia.
Qed.

Lemma totals_second (a c : Z) (P : list byte) (p : ptr) (st : vars) :
  (64 <= length (mem p))%nat ->
  totals a c P st ->
  totals a c (P ++ firstn 64 (mem p))
         (unrolled_second (L := ideal) (_mm512_loadu_si512 p) st).
Proof.
  intros Hp ((L1 & L2 & L3 & L4) & E & S1 & S2).
  unfold totals, unrolled_second. cbn [vs1 vs2 vs1_0 vs3 vs2_1].
  rewrite sad_zero, dpbusd_add.
  rewrite !length_add_ideal, !sum_add_ideal, even_add_ideal
    by auto using byte_sums_length, dp_length.
  rewrite even_sum_byte_sums, byte_sums_load, dp_load by exact Hp.
  rewrite sum_fold_app, (surjective_pairing (sum_fold (a, c) P)).
  rewrite (sum_fold_shift (fst (sum_fold (a, c) P))).
  rewrite firstn_64_length by exact Hp. cbn [fst snd].
  repeat split; try assumption; lia.
Qed.

Lemma totals_peel (a c : Z) (P : list byte) (st : vars) :
  Z.rem (k st) 128 <> 0 ->
  (64 <= length (mem (buf st)))%nat ->
  vs1_0 st = vs1 st ->
  totals a c P st ->
  totals a c (P ++ firstn 64 (mem (buf st))) (peel (L := ideal) st).
Proof.
  intros Hk Hp H0 ((L1 & L2 & L3 & L4) & E & S1 & S2).
  unfold totals, peel. destruct (Z.eqb_spec (Z.rem (k st) 128) 0); [contradiction|].
  cbn [vs1 vs2 vs1_0 vs3 vs2_1].
  rewrite sad_zero, dpbusd_add, H0.
  rewrite !length_add_ideal, !sum_add_ideal, even_add_ideal
    by auto using byte_sums_length, dp_length.
  rewrite even_sum_byte_sums, byte_sums_load, dp_load by exact Hp.
  rewrite sum_fold_app, (surjective_pairing (sum_fold (a, c) P)).
  rewrite (sum_fold_shift (fst (sum_fold (a, c) P))).
  rewrite firstn_64_length by exact Hp. cbn [fst snd].
  repeat split; try assumption; lia.
Qed.

(** What the unrolled loop does to the pointer and the counters, in either
    arithmetic. *)
Lemma unrolled_frame {L : LaneArith} (n : nat) :
  forall st : vars,
    k st = 128 * Z.of_nat n ->
    k (unrolled_loop st) = 0
    /\ buf (unrolled_loop st) = ptr_add (buf st) (128 * Z.of_nat n)
    /\ len (unrolled_loop st) = len st
    /\ adler (unrolled_loop st) = adler st
    /\ sum2 (unrolled_loop st) = sum2 st.
Proof.
  induction n as [|n IH]; intros st Hk; rewrite unrolled_loop_eq.
  - destruct (Z.leb_spec 128 (k st)); [lia|].
    change (128 * Z.of_nat 0) with 0. rewrite ptr_add_0. repeat split. lia.
  - destruct (Z.leb_spec 128 (k st)); [|lia].
    destruct (IH (unrolled_iter st)) as (I1 & I2 & I3 & I4 & I5).
    + rewrite k_unrolled_iter. lia.
    + rewrite I1, I2, I3, I4, I5.
      cbn [buf unrolled_iter unrolled_second unrolled_first advance128 len adler sum2].
      rewrite ptr_add_add by lia. repeat split. f_equal. lia.
Qed.

Lemma totals_unrolled (a c : Z) (n : nat) :
  forall (st : vars) (P : list byte),
    k st = 128 * Z.of_nat n ->
    (128 * n <= length (mem (buf st)))%nat ->
    vs1_0 st = vs1 st ->
    totals a c P st ->
    totals a c (P ++ firstn (128 * n) (mem (buf st))) (unrolled_loop (L := ideal) st).
Proof.
  induction n as [|n IH]; intros st P Hk Hlen H0 HT; rewrite unrolled_loop_eq.
  - destruct (Z.leb_spec 128 (k st)); [lia|].
    change (128 * 0)%nat with 0%nat. rewrite firstn_O, app_nil_r. exact HT.
  - destruct (Z.leb_spec 128 (k st)); [|lia].
    assert (T1 : totals a c (P ++ firstn 64 (mem (buf st)))
                   (unrolled_first (L := ideal) (_mm512_loadu_si512 (buf st))
                                   (advance128 st))).
    { apply totals_first; [lia | exact H0 | exact HT]. }
    assert (T2 : totals a c ((P ++ firstn 64 (mem (buf st)))
                             ++ firstn 64 (mem (ptr_add (buf st) 64)))
                   (unrolled_iter (L := ideal) st)).
    { apply totals_second; [|exact T1].
      rewrite mem_ptr_add, length_skipn. lia. }
    apply IH in T2.
    + replace (P ++ firstn (128 * S n) (mem (buf st)))
        with (((P ++ firstn 64 (mem (buf st))) ++ firstn 64 (mem (ptr_add (buf st) 64)))
              ++ firstn (128 * n) (mem (buf (unrolled_iter (L := ideal) st))));
        [exact T2|].
      cbn [buf unrolled_iter unrolled_second unrolled_first advance128].
      rewrite !mem_ptr_add, <- !app_assoc. f_equal.
      replace (128 * S n)%nat with (64 + (64 + 128 * n))%nat by lia.
      rewrite !firstn_plus, skipn_skipn. reflexivity.
    + rewrite k_unrolled_iter. lia.
    + cbn [buf unrolled_iter unrolled_second unrolled_first advance128].
      rewrite mem_ptr_add, length_skipn. lia.
    + reflexivity.
Qed.

(** ** The chunk length *)

Lemma chunk_len_spec (n : Z) :
  64 <= n ->
  exists m : nat,
    chunk_len n = 64 * Z.of_nat m /\ (1 <= m <= 86)%nat
    /\ chunk_len n <= n /\ Z.min n NMAX - 64 < chunk_len n <= Z.min n NMAX.
Proof.
  intros H. unfold chunk_len, NMAX.
  destruct (Z.ltb_spec n 5552).
  - exists (Z.to_nat (n / 64)). rewrite Z.rem_mod_nonneg by lia. lia.
  - exists 86%nat. change (Z.rem 5552 64) with 48. lia.
Qed.

(** ** One chunk *)

Lemma peel_cases {L : LaneArith} (st : vars) (m : nat) :
  k st = 64 * Z.of_nat m ->
  exists n : nat,
    k (peel st) = 128 * Z.of_nat n
    /\ ((Z.rem (k st) 128 = 0 /\ peel st = st /\ m = (2 * n)%nat)
        \/ (Z.rem (k st) 128 <> 0 /\ k (peel st) = k st - 64
            /\ buf (peel st) = ptr_add (buf st) 64 /\ m = (2 * n + 1)%nat)).
Proof.
  intros Hk. unfold peel. rewrite Z.rem_mod_nonneg by lia.
  destruct (Z.eqb_spec (k st mod 128) 0) as [E|E].
  - exists (Z.to_nat (k st / 128)). split; [lia|]. left. repeat split; lia.
  - exists (Z.to_nat (k st / 128)). cbn [k buf]. split; [lia|]. right. repeat split; lia.
Qed.

(** The pointer, the lengths and the scalar sums after a chunk, in either
    arithmetic. *)
Lemma chunk_frame {L : LaneArith} (st : vars) :
  64 <= len st ->
  buf (chunk st) = ptr_add (buf st) (chunk_len (len st))
  /\ len (chunk st) = len st - chunk_len (len st)
  /\ at_head (chunk st)
  /\ 0 <= adler (chunk st) < BASE
  /\ 0 <= sum2 (chunk st) < BASE.
Proof.
  intros Hlen.
  destruct (chunk_len_spec (len st) Hlen) as (m & Hm & Hm1 & Hm2 & Hm3).
  split; [|split; [apply chunk_len_eq|split; [split; reflexivity|]]].
  - unfold chunk, sub_blocks. cbn [buf reduce finish finish_second finish_carry finish_shift].
    destruct (peel_cases (chunk_begin st) m Hm)
      as (n & Hn & [(_ & E & Em) | (_ & _ & E & Em)]);
      destruct (unrolled_frame n _ Hn) as (_ & -> & _).
    + rewrite E. cbn [buf chunk_begin]. f_equal. lia.
    + rewrite E, ptr_add_add by lia. cbn [buf chunk_begin]. f_equal. lia.
  - unfold chunk, reduce. cbn [adler sum2]. unfold BASE.
    split; apply Z.mod_pos_bound; lia.
Qed.

Lemma fold_add_sum (l : list Z) (a : Z) :
  fold_left (fun acc y => acc + y) l a = a + sum_list l.
Proof.
  revert a. induction l as [|x l IH]; intros a; simpl; [lia|]. rewrite IH. lia.
Qed.

Lemma reduce_add_ideal (v : m512i) :
  _mm512_reduce_add_epu32 (L := ideal) v = sum_list v.
Proof.
  unfold _mm512_reduce_add_epu32, wrap, ideal. rewrite fold_add_sum. lia.
Qed.

Lemma partial_hsum_ideal (v : m512i) : partial_hsum (L := ideal) v = even_sum v.
Proof.
  unfold partial_hsum, even_sum, wrap, ideal. cbn [seq fold_left map sum_list]. lia.
Qed.

Lemma slli_ideal (v : m512i) :
  _mm512_slli_epi32 (L := ideal) v 6 = map (fun x => 64 * x) v.
Proof.
  unfold _mm512_slli_epi32. apply map_ext. intros x.
  unfold wrap, ideal. rewrite Z.shiftl_mul_pow2 by lia. lia.
Qed.

Lemma sum_slli_ideal (v : m512i) :
  sum_list (_mm512_slli_epi32 (L := ideal) v 6) = 64 * sum_list v.
Proof.
  rewrite slli_ideal. induction v as [|x v IH]; [reflexivity|].
  cbn [map sum_list]. rewrite IH. lia.
Qed.

Lemma length_slli {L : LaneArith} (v : m512i) (n : Z) :
  length (_mm512_slli_epi32 v n) = length v.
Proof. apply length_map. Qed.

Lemma totals_begin (st : vars) :
  at_head st ->
  totals (adler st) (sum2 st) [] (chunk_begin st).
Proof.
  intros [H1 H2]. unfold totals, chunk_begin. cbn [vs1 vs2 vs1_0 vs3 vs2_1].
  rewrite H1, H2. unfold even_sum, lane. cbn. repeat split; lia.
Qed.

(** The lanes after the sub-blocks of a chunk, in the ideal arithmetic. *)
Lemma totals_sub_blocks (st : vars) :
  at_head st ->
  64 <= len st ->
  len st <= Z.of_nat (length (mem (buf st))) ->
  totals (adler st) (sum2 st)
         (firstn (Z.to_nat (chunk_len (len st))) (mem (buf st)))
         (sub_blocks (L := ideal) (chunk_begin st)).
Proof.
  intros Hh Hlen Hbuf.
  destruct (chunk_len_spec (len st) Hlen) as (m & Hm & Hm1 & Hm2 & Hm3).
  pose proof (totals_begin st Hh) as T0. unfold sub_blocks.
  destruct (peel_cases (L := ideal) (chunk_begin st) m Hm)
    as (n & Hn & [(_ & E & Em) | (Hr & Hk & E & Em)]).
  - rewrite E in *.
    apply (totals_unrolled _ _ n) in T0; [| exact Hn | | reflexivity].
    + cbn [buf chunk_begin app] in T0. rewrite Hm.
      replace (Z.to_nat (64 * Z.of_nat m)) with (128 * n)%nat by lia. exact T0.
    + cbn [buf chunk_begin]. lia.
  - apply totals_peel in T0; [| exact Hr | cbn [buf chunk_begin]; lia | reflexivity].
    apply (totals_unrolled _ _ n) in T0; [| exact Hn | | ].
    + rewrite E in T0. cbn [buf chunk_begin app] in T0.
      rewrite mem_ptr_add, <- firstn_plus in T0. rewrite Hm.
      replace (Z.to_nat (64 * Z.of_nat m)) with (Z.to_nat 64 + 128 * n)%nat by lia.
      exact T0.
    + rewrite E, mem_ptr_add, length_skipn. cbn [buf chunk_begin]. lia.
    + unfold peel. destruct (Z.eqb_spec (Z.rem (k (chunk_begin st)) 128) 0);
        [contradiction | reflexivity].
Qed.

Lemma chunk_ideal_sums (st : vars) :
  at_head st ->
  64 <= len st ->
  len st <= Z.of_nat (length (mem (buf st))) ->
  let X := firstn (Z.to_nat (chunk_len (len st))) (mem (buf st)) in
  let s2 := sub_blocks (L := ideal) (chunk_begin st) in
  even_sum (vs1 (finish (L := ideal) s2)) = fst (sum_fold (adler st, sum2 st) X)
  /\ sum_list (vs2 (finish (L := ideal) s2)) = snd (sum_fold (adler st, sum2 st) X)
  /\ adler (chunk (L := ideal) st) = fst (sum_fold (adler st, sum2 st) X) mod BASE
  /\ sum2 (chunk (L := ideal) st) = snd (sum_fold (adler st, sum2 st) X) mod BASE.
Proof.
  intros Hh Hlen Hbuf X s2.
  destruct (totals_sub_blocks st Hh Hlen Hbuf) as ((L1 & L2 & L3 & L4) & E & S1 & S2).
  fold X in S1, S2. fold s2 in L1, L2, L3, L4, E, S1, S2.
  assert (A1 : even_sum (vs1 (finish (L := ideal) s2)) = fst (sum_fold (adler st, sum2 st) X)).
  { cbn [vs1 finish finish_second finish_carry finish_shift]. congruence. }
  assert (A2 : sum_list (vs2 (finish (L := ideal) s2)) = snd (sum_fold (adler st, sum2 st) X)).
  { cbn [vs1 vs2 vs3 vs2_1 finish finish_second finish_carry finish_shift].
    rewrite !sum_add_ideal, sum_slli_ideal;
      rewrite ?length_add_ideal, ?length_slli; auto; try lia.
    rewrite length_slli. exact L3. }
  unfold chunk. fold s2. unfold reduce. cbn [adler sum2].
  rewrite partial_hsum_ideal, reduce_add_ideal, A1, A2. repeat split.
Qed.

(** ** No lane overflows in a chunk *)

Lemma lanes_le_slli (b : Z) (v : m512i) :
  lanes_le b v -> lanes_le (64 * b) (_mm512_slli_epi32 (L := ideal) v 6).
Proof.
  intros H. rewrite slli_ideal. unfold lanes_le in *. apply Forall_map.
  eapply Forall_impl; [|exact H]. cbv beta. intros x Hx. lia.
Qed.

Lemma bounds_begin (st : vars) :
  at_head st -> 0 <= adler st -> 0 <= sum2 st ->
  bounds (adler st) (sum2 st) 0 (chunk_begin st).
Proof.
  intros [H1 H2] Ha Hc. unfold bounds, chunk_begin. cbn [vs1 vs2 vs1_0 vs3 vs2_1].
  rewrite H1, H2. unfold lanes_le. cbn.
  repeat split; repeat constructor; lia.
Qed.

Lemma bounds_in_range_wide (a c j : Z) (st : vars) :
  0 <= a < 2 ^ 16 -> 0 <= c < 2 ^ 16 -> 0 <= j <= 87 ->
  bounds a c j st -> accs_in_range st.
Proof.
  intros Ha Hc Hj (H1 & H2 & H3 & H4 & H5).
  unfold accs_in_range, lanes_in_range.
  repeat split; (eapply lanes_le_mono; [|eassumption]); nia.
Qed.

Lemma bounds_in_range (a c j : Z) (st : vars) :
  0 <= a < BASE -> 0 <= c < BASE -> 0 <= j <= 87 ->
  bounds a c j st -> accs_in_range st.
Proof.
  unfold BASE. intros Ha Hc. apply bounds_in_range_wide; lia.
Qed.

Lemma bounds_sub_blocks (st : vars) :
  at_head st -> 0 <= adler st -> 0 <= sum2 st -> 64 <= len st ->
  bounds (adler st) (sum2 st) 1 (peel (L := ideal) (chunk_begin st))
  /\ bounds (adler st) (sum2 st) 87 (sub_blocks (L := ideal) (chunk_begin st))
  /\ Forall (bounds (adler st) (sum2 st) 87)
            (unrolled_trace (L := ideal) (peel (L := ideal) (chunk_begin st))).
Proof.
  intros Hh Ha Hc Hlen.
  destruct (chunk_len_spec (len st) Hlen) as (m & Hm & Hm1 & Hm2 & Hm3).
  pose proof (bounds_peel _ _ 0 _ Ha ltac:(lia) (bounds_begin st Hh Ha Hc)) as B1.
  split; [exact B1|].
  destruct (peel_cases (L := ideal) (chunk_begin st) m Hm) as (n & Hn & Hcases).
  destruct (bounds_unrolled _ _ n (0 + 1) _ Ha ltac:(lia) Hn B1) as [B2 B3].
  assert (Hj : 0 <= 0 + 1 + 2 * Z.of_nat n <= 87)
    by (destruct Hcases as [(_ & _ & Em) | (_ & _ & _ & Em)]; lia).
  split.
  - unfold sub_blocks. eapply bounds_mono; [exact Ha | exact Hj | exact B2].
  - eapply Forall_impl; [|exact B3]. intros s Hs.
    eapply bounds_mono; [exact Ha | exact Hj | exact Hs].
Qed.

Lemma finish_in_range_wide (a c : Z) (st : vars) :
  0 <= a < 2 ^ 16 -> 0 <= c < 2 ^ 16 -> bounds a c 87 st ->
  accs_in_range (finish_shift (L := ideal) st)
  /\ accs_in_range (finish_carry (L := ideal) (finish_shift (L := ideal) st))
  /\ accs_in_range (finish (L := ideal) st).
Proof.
  intros Ha Hc (H1 & H2 & H3 & H4 & H5).
  pose proof (lanes_le_slli _ _ H4) as H4'.
  pose proof (lanes_le_add _ _ _ _ H2 H4') as H2'.
  pose proof (lanes_le_add _ _ _ _ H2' H5) as H2''.
  unfold accs_in_range, lanes_in_range, finish, finish_second, finish_carry, finish_shift.
  cbn [vs1 vs2 vs1_0 vs3 vs2_1].
  repeat split; (eapply lanes_le_mono; [|eassumption]); nia.
Qed.

Lemma finish_in_range (a c : Z) (st : vars) :
  0 <= a < BASE -> 0 <= c < BASE -> bounds a c 87 st ->
  accs_in_range (finish_shift (L := ideal) st)
  /\ accs_in_range (finish_carry (L := ideal) (finish_shift (L := ideal) st))
  /\ accs_in_range (finish (L := ideal) st).
Proof.
  unfold BASE. intros Ha Hc. apply finish_in_range_wide; lia.
Qed.

Lemma chunk_trace_in_range_wide (st : vars) :
  at_head st -> 0 <= adler st < 2 ^ 16 -> 0 <= sum2 st < 2 ^ 16 -> 64 <= len st ->
  Forall accs_in_range (chunk_trace (L := ideal) st).
Proof.
  intros Hh Ha Hc Hlen.
  destruct (bounds_sub_blocks st Hh ltac:(lia) ltac:(lia) Hlen) as (B1 & B2 & B3).
  destruct (finish_in_range_wide _ _ _ Ha Hc B2) as (F1 & F2 & F3).
  unfold chunk_trace. cbv zeta.
  constructor; [|constructor; [|apply Forall_app; split]].
  - apply (bounds_in_range_wide (adler st) (sum2 st) 0); try assumption; try lia.
    apply bounds_begin; [exact Hh | lia | lia].
  - apply (bounds_in_range_wide (adler st) (sum2 st) 1); try assumption; lia.
  - eapply Forall_impl; [|exact B3]. intros s Hs.
    apply (bounds_in_range_wide (adler st) (sum2 st) 87); try assumption; lia.
  - constructor; [exact F1 | constructor; [exact F2 | constructor; [exact F3 | constructor]]].
Qed.

Lemma chunk_trace_in_range (st : vars) :
  at_head st -> 0 <= adler st < BASE -> 0 <= sum2 st < BASE -> 64 <= len st ->
  Forall accs_in_range (chunk_trace (L := ideal) st).
Proof.
  unfold BASE. intros Hh Ha Hc. apply chunk_trace_in_range_wide; [exact Hh | lia | lia].
Qed.

Lemma sub_blocks_machine (st : vars) :
  64 <= len st ->
  Forall accs_in_range (chunk_trace (L := ideal) st) ->
  chunk_trace (L := machine) st = chunk_trace (L := ideal) st
  /\ finish (L := machine) (sub_blocks (L := machine) (chunk_begin st))
     = finish (L := ideal) (sub_blocks (L := ideal) (chunk_begin st)).
Proof.
  intros Hlen HF.
  destruct (chunk_len_spec (len st) Hlen) as (m & Hm & _).
  destruct (peel_cases (L := ideal) (chunk_begin st) m Hm) as (n & Hn & _).
  unfold chunk_trace in *. cbv zeta in *.
  inversion HF as [|s0 t0 R0 HF1]; subst. inversion HF1 as [|s1 t1 R1 HF2]; subst.
  apply Forall_app in HF2. destruct HF2 as [HT HF3].
  inversion HF3 as [|s2 t2 R2 HF4]; subst. inversion HF4 as [|s3 t3 R3 HF5]; subst.
  inversion HF5 as [|s4 t4 R4 _]; subst.
  rewrite (peel_machine _ R1).
  destruct (unrolled_machine n _ Hn HT) as [E1 E2].
  unfold sub_blocks, finish in *. rewrite (peel_machine _ R1), E1, E2.
  rewrite (finish_shift_machine _ R2), (finish_carry_machine _ R3),
    (finish_second_machine _ R4).
  split; reflexivity.
Qed.

Lemma wrap_fold (l : list Z) (a : Z) :
  0 <= a -> Forall (fun x => 0 <= x) l -> a + sum_list l <= 2 ^ 32 - 1 ->
  fold_left (fun acc y => wrap (LaneArith := machine) (acc + y)) l a = a + sum_list l.
Proof.
  intros Ha Hl. revert a Ha.
  induction Hl as [|x l Hx Hl IH]; intros a Ha Hs; cbn [fold_left sum_list] in *; [lia|].
  assert (0 <= sum_list l).
  { clear IH Hs. induction Hl; cbn [sum_list]; lia. }
  unfold wrap at 2, machine. rewrite Z.mod_small by lia.
  rewrite IH by lia. lia.
Qed.

Lemma lanes_nonneg (b : Z) (v : m512i) :
  lanes_le b v -> Forall (fun x => 0 <= x) v.
Proof.
  intros H. eapply Forall_impl; [|exact H]. cbv beta. intros x Hx. lia.
Qed.

Lemma lane_nonneg (b : Z) (v : m512i) (i : nat) : lanes_le b v -> 0 <= lane v i.
Proof.
  intros H. unfold lane. destruct (Nat.lt_ge_cases i (length v)) as [Hi|Hi].
  - apply lanes_nonneg in H. rewrite Forall_forall in H. apply H, nth_In, Hi.
  - rewrite nth_overflow by exact Hi. lia.
Qed.

Lemma reduce_add_machine (v : m512i) :
  lanes_in_range v -> sum_list v <= 2 ^ 32 - 1 ->
  _mm512_reduce_add_epu32 (L := machine) v = _mm512_reduce_add_epu32 (L := ideal) v.
Proof.
  intros H Hs. rewrite reduce_add_ideal. unfold _mm512_reduce_add_epu32.
  rewrite wrap_fold; [lia | lia | eapply lanes_nonneg; exact H | lia].
Qed.

Lemma fold_left_map_wrap {L : LaneArith} (f : nat -> Z) (l : list nat) (a : Z) :
  fold_left (fun acc j => wrap (acc + f j)) l a
  = fold_left (fun acc y => wrap (acc + y)) (map f l) a.
Proof.
  revert a. induction l as [|j l IH]; intros a; [reflexivity|]. cbn [map fold_left].
  apply IH.
Qed.

Lemma partial_hsum_machine (v : m512i) :
  lanes_in_range v -> even_sum v <= 2 ^ 32 - 1 ->
  partial_hsum (L := machine) v = partial_hsum (L := ideal) v.
Proof.
  intros H Hs. rewrite partial_hsum_ideal. unfold even_sum in *.
  unfold partial_hsum. rewrite fold_left_map_wrap.
  rewrite wrap_fold; [lia | lia | | lia].
  apply Forall_map, Forall_forall. intros j _. eapply lane_nonneg. exact H.
Qed.

(** The ideal sums of a chunk fit 32 bits: this is what [NMAX] is for. *)
Lemma sum_fold_fits_wide (a c : Z) (X : list byte) :
  0 <= a < 2 ^ 16 -> 0 <= c < 2 ^ 16 -> Z.of_nat (length X) <= NMAX ->
  0 <= fst (sum_fold (a, c) X) <= 2 ^ 32 - 1
  /\ 0 <= snd (sum_fold (a, c) X) <= 2 ^ 32 - 1.
Proof.
  unfold NMAX. intros Ha Hc Hn. rewrite sum_fold_shift. cbn [fst snd].
  destruct (sum_fold_bounds X) as [B1 B2].
  remember (Z.of_nat (length X)) as n eqn:En.
  assert (0 <= n) by lia.
  assert (n * (n + 1) <= 5552 * 5553) by nia.
  assert (n * a <= 5552 * 65535) by nia.
  lia.
Qed.

Lemma sum_fold_fits (a c : Z) (X : list byte) :
  0 <= a < BASE -> 0 <= c < BASE -> Z.of_nat (length X) <= NMAX ->
  0 <= fst (sum_fold (a, c) X) <= 2 ^ 32 - 1
  /\ 0 <= snd (sum_fold (a, c) X) <= 2 ^ 32 - 1.
Proof.
  unfold BASE. intros Ha Hc. apply sum_fold_fits_wide; lia.
Qed.

(** In a chunk entered with reduced sums no lane overflows, and the machine
    computes what the ideal arithmetic computes. *)
Lemma chunk_no_overflow_wide (st : vars) :
  at_head st ->
  split_state (adler st, sum2 st) ->
  64 <= len st ->
  len st <= Z.of_nat (length (mem (buf st))) ->
  let F := finish (L := ideal) (sub_blocks (L := ideal) (chunk_begin st)) in
  Forall accs_in_range (chunk_trace (L := ideal) st)
  /\ chunk_trace (L := machine) st = chunk_trace (L := ideal) st
  /\ 0 <= even_sum (vs1 F) <= 2 ^ 32 - 1
  /\ 0 <= sum_list (vs2 F) <= 2 ^ 32 - 1
  /\ chunk (L := machine) st = chunk (L := ideal) st.
Proof.
  intros Hh [Ha Hc] Hlen Hbuf F. cbn [fst snd] in Ha, Hc.
  pose proof (chunk_trace_in_range_wide st Hh Ha Hc Hlen) as HR.
  destruct (sub_blocks_machine st Hlen HR) as [E1 E2]. fold F in E2.
  destruct (chunk_ideal_sums st Hh Hlen Hbuf) as (S1 & S2 & _). fold F in S1, S2.
  destruct (chunk_len_spec (len st) Hlen) as (m & Hm & _ & Hm2 & Hm3).
  destruct (sum_fold_fits_wide (adler st) (sum2 st)
              (firstn (Z.to_nat (chunk_len (len st))) (mem (buf st))) Ha Hc) as [B1 B2].
  { rewrite length_firstn. lia. }
  rewrite <- S1 in B1. rewrite <- S2 in B2.
  assert (RF : accs_in_range F).
  { unfold chunk_trace in HR. cbv zeta in HR.
    inversion HR as [|s0 t0 _ HR1]; subst. inversion HR1 as [|s1 t1 _ HR2]; subst.
    apply Forall_app in HR2. destruct HR2 as [_ HR3].
    inversion HR3 as [|s2 t2 _ HR4]; subst. inversion HR4 as [|s3 t3 _ HR5]; subst.
    inversion HR5 as [|s4 t4 R4 _]; subst. exact R4. }
  destruct RF as (R1 & R2 & _).
  repeat split; try assumption; try lia.
  unfold chunk. rewrite E2. unfold reduce.
  rewrite partial_hsum_machine, reduce_add_machine by (assumption || lia).
  reflexivity.
Qed.

Lemma chunk_no_overflow (st : vars) :
  at_head st ->
  valid_state (adler st, sum2 st) ->
  64 <= len st ->
  len st <= Z.of_nat (length (mem (buf st))) ->
  let F := finish (L := ideal) (sub_blocks (L := ideal) (chunk_begin st)) in
  Forall accs_in_range (chunk_trace (L := ideal) st)
  /\ chunk_trace (L := machine) st = chunk_trace (L := ideal) st
  /\ 0 <= even_sum (vs1 F) <= 2 ^ 32 - 1
  /\ 0 <= sum_list (vs2 F) <= 2 ^ 32 - 1
  /\ chunk (L := machine) st = chunk (L := ideal) st.
Proof.
  intros Hh [Ha Hc]. apply chunk_no_overflow_wide; [exact Hh|].
  unfold BASE in *. split; cbn [fst snd] in *; lia.
Qed.

(** ** The sequential recurrence and the sums without reduction *)

Lemma adler_fold_snoc (st : Z * Z) (bs : list byte) (b : byte) :
  adler_fold st (bs ++ [b]) = adler_step (adler_fold st bs) b.
Proof. unfold adler_fold. rewrite fold_left_app. reflexivity. Qed.

Lemma sum_fold_snoc (st : Z * Z) (bs : list byte) (b : byte) :
  sum_fold st (bs ++ [b]) = sum_step (sum_fold st bs) b.
Proof. unfold sum_fold. rewrite fold_left_app. reflexivity. Qed.

Lemma adler_fold_app (st : Z * Z) (bs cs : list byte) :
  adler_fold st (bs ++ cs) = adler_fold (adler_fold st bs) cs.
Proof. unfold adler_fold. apply fold_left_app. Qed.

Lemma adler_fold_cong (st : Z * Z) (bs : list byte) :
  fst (adler_fold st bs) mod BASE = fst (sum_fold st bs) mod BASE
  /\ snd (adler_fold st bs) mod BASE = snd (sum_fold st bs) mod BASE.
Proof.
  induction bs as [|b bs [IH1 IH2]] using rev_ind; [split; reflexivity|].
  rewrite adler_fold_snoc, sum_fold_snoc. unfold adler_step, sum_step. cbn [fst snd].
  unfold BASE in *. split; lia.
Qed.

Lemma adler_fold_reduced (st : Z * Z) (bs : list byte) :
  bs <> [] -> valid_state (adler_fold st bs).
Proof.
  intros H. destruct (exists_last H) as (bs' & b & ->).
  rewrite adler_fold_snoc. unfold valid_state, adler_step, BASE. cbn [fst snd].
  split; apply Z.mod_pos_bound; lia.
Qed.

Lemma adler_fold_valid (st : Z * Z) (bs : list byte) :
  valid_state st -> valid_state (adler_fold st bs).
Proof.
  intros H. destruct bs as [|b bs]; [exact H|].
  apply adler_fold_reduced. discriminate.
Qed.

(** The recurrence with a reduction at every byte is the recurrence over the
    integers, reduced once at the end. *)
Lemma adler_fold_sum_fold (st : Z * Z) (bs : list byte) :
  bs <> [] ->
  adler_fold st bs = (fst (sum_fold st bs) mod BASE, snd (sum_fold st bs) mod BASE).
Proof.
  intros H. destruct (adler_fold_cong st bs) as [E1 E2].
  destruct (adler_fold_reduced st bs H) as [R1 R2].
  rewrite <- E1, <- E2, !Z.mod_small by assumption.
  apply surjective_pairing.
Qed.

(** ** The chunk and the outer loop on the machine *)

Lemma chunk_correct_wide (st : vars) :
  at_head st ->
  split_state (adler st, sum2 st) ->
  64 <= len st ->
  len st <= Z.of_nat (length (mem (buf st))) ->
  (adler (chunk st), sum2 (chunk st))
  = adler_fold (adler st, sum2 st)
               (firstn (Z.to_nat (chunk_len (len st))) (mem (buf st))).
Proof.
  intros Hh Hv Hlen Hbuf.
  destruct (chunk_no_overflow_wide st Hh Hv Hlen Hbuf) as (_ & _ & _ & _ & ->).
  destruct (chunk_ideal_sums st Hh Hlen Hbuf) as (_ & _ & -> & ->).
  rewrite adler_fold_sum_fold; [reflexivity|].
  destruct (chunk_len_spec (len st) Hlen) as (m & Hm & Hm1 & Hm2 & _).
  intros E. apply (f_equal (@length byte)) in E.
  rewrite length_firstn in E. simpl in E. lia.
Qed.

Lemma chunk_correct (st : vars) :
  at_head st ->
  valid_state (adler st, sum2 st) ->
  64 <= len st ->
  len st <= Z.of_nat (length (mem (buf st))) ->
  (adler (chunk st), sum2 (chunk st))
  = adler_fold (adler st, sum2 st)
               (firstn (Z.to_nat (chunk_len (len st))) (mem (buf st))).
Proof.
  intros Hh [Ha Hc]. apply chunk_correct_wide; [exact Hh|].
  unfold BASE in *. split; cbn [fst snd] in *; lia.
Qed.

Lemma firstn_firstn_skipn {A} (n m : nat) (l : list A) :
  firstn n l ++ firstn m (skipn n l) = firstn (n + m) l.
Proof. symmetry. apply firstn_plus. Qed.

(** The outer loop consumes all but the last [len mod 64] bytes, keeps the
    sums reduced and leaves them as the sequential recurrence does. *)
Lemma chunk_loop_correct (n : nat) :
  forall st : vars,
    Z.to_nat (len st) = n ->
    at_head st ->
    valid_state (adler st, sum2 st) ->
    0 <= len st <= Z.of_nat (length (mem (buf st))) ->
    let st' := chunk_loop st in
    0 <= len st' < 64
    /\ len st' <= len st
    /\ buf st' = ptr_add (buf st) (len st - len st')
    /\ (adler st', sum2 st')
       = adler_fold (adler st, sum2 st)
                    (firstn (Z.to_nat (len st - len st')) (mem (buf st)))
    /\ valid_state (adler st', sum2 st')
    /\ at_head st'.
Proof.
  induction n as [n IH] using (well_founded_induction lt_wf).
  intros st Hn Hh Hv Hlen. cbv zeta. rewrite chunk_loop_eq.
  destruct (Z.leb_spec 64 (len st)) as [H64|H64].
  - destruct (chunk_frame st ltac:(lia)) as (Fb & Fl & Fh & Fa & Fs).
    destruct (chunk_len_spec (len st) H64) as (m & Hm & Hm1 & Hm2 & _).
    pose proof (chunk_correct st Hh Hv ltac:(lia) ltac:(lia)) as Hc.
    destruct (IH (Z.to_nat (len (chunk st))) ltac:(lia) (chunk st) eq_refl Fh)
      as (I1 & I2 & I3 & I4 & I5 & I6).
    + split; assumption.
    + rewrite Fb, Fl, mem_ptr_add, length_skipn. lia.
    + split; [lia | split; [lia | split; [ | split; [ | split; [exact I5 | exact I6]]]]].
      * rewrite I3, Fb, ptr_add_add by lia. f_equal. lia.
      * rewrite I4, Hc, <- adler_fold_app, Fb, mem_ptr_add, firstn_firstn_skipn.
        replace (Z.to_nat (chunk_len (len st))
                 + Z.to_nat (len (chunk st) - len (chunk_loop (chunk st))))%nat
          with (Z.to_nat (len st - len (chunk_loop (chunk st)))) by lia.
        reflexivity.
  - replace (len st - len st) with 0 by lia. rewrite ptr_add_0.
    split; [lia | split; [lia | split; [reflexivity | split; [reflexivity | split; assumption]]]].
Qed.

(** ** Packing *)

Lemma pack_add (s1 s2 : Z) :
  0 <= s1 < 2 ^ 16 -> 0 <= s2 -> pack (s1, s2) = s1 + 2 ^ 16 * s2.
Proof.
  intros H1 H2. unfold pack. cbn [fst snd].
  assert (HL : Z.land s1 (Z.shiftl s2 16) = 0).
  { apply Z.bits_inj'. intros i Hi. rewrite Z.land_spec, Z.bits_0.
    destruct (Z.ltb_spec i 16).
    - rewrite Z.shiftl_spec_low by lia. apply andb_false_r.
    - rewrite <- (Z.mod_small s1 (2 ^ 16)) by lia.
      rewrite Z.mod_pow2_bits_high by lia. reflexivity. }
  pose proof (Z.add_lor_land s1 (Z.shiftl s2 16)) as E.
  rewrite HL in E. pose proof (Z.shiftl_mul_pow2 s2 16 ltac:(lia)) as E2. lia.
Qed.

Lemma unpack_pack (st : Z * Z) : valid_state st -> unpack (pack st) = st.
Proof.
  destruct st as [s1 s2]. unfold valid_state, BASE. cbn [fst snd]. intros [H1 H2].
  rewrite pack_add by lia. unfold unpack.
  change 65535 with (Z.ones 16). rewrite !Z.land_ones, Z.shiftr_div_pow2 by lia.
  f_equal; lia.
Qed.

(** ** The sub-blocks of a chunk, one at a time *)

Lemma sub_block_regs_S (p : ptr) (m : nat) :
  sub_block_regs p (S m) = _mm512_loadu_si512 p :: sub_block_regs (ptr_add p 64) m.
Proof.
  unfold sub_block_regs. cbn [seq map]. change (64 * Z.of_nat 0) with 0.
  rewrite ptr_add_0. f_equal. rewrite <- seq_shift, map_map.
  apply map_ext. intros j. rewrite ptr_add_add by lia. do 2 f_equal. lia.
Qed.

Lemma add32_comm (a b : m512i) : _mm512_add_epi32 a b = _mm512_add_epi32 b a.
Proof.
  unfold _mm512_add_epi32. revert b.
  induction a as [|x a IH]; intros [|y b]; cbn [zip_with]; try reflexivity.
  rewrite IH, (Z.add_comm x y). reflexivity.
Qed.

Lemma add32_assoc (a b c : m512i) :
  _mm512_add_epi32 (_mm512_add_epi32 a b) c = _mm512_add_epi32 a (_mm512_add_epi32 b c).
Proof.
  unfold _mm512_add_epi32. revert b c.
  induction a as [|x a IH]; intros [|y b] [|z c]; cbn [zip_with]; try reflexivity.
  rewrite IH. f_equal. unfold wrap, machine.
  rewrite Z.add_mod_idemp_l, Z.add_mod_idemp_r by lia. f_equal. lia.
Qed.

Lemma add32_right_comm (a b c : m512i) :
  _mm512_add_epi32 (_mm512_add_epi32 a b) c = _mm512_add_epi32 (_mm512_add_epi32 a c) b.
Proof. rewrite !add32_assoc, (add32_comm b c). reflexivity. Qed.

(** The unrolled loop is the sub-blocks taken in order, the two weighted
    accumulators counted together. *)
Lemma unrolled_fold (n : nat) :
  forall s : vars,
    k s = 128 * Z.of_nat n ->
    vs1_0 s = vs1 s ->
    (vs1 (unrolled_loop s),
     _mm512_add_epi32 (vs2 (unrolled_loop s)) (vs2_1 (unrolled_loop s)),
     vs3 (unrolled_loop s))
    = fold_left one_sub_block (sub_block_regs (buf s) (2 * n))
                (vs1 s, _mm512_add_epi32 (vs2 s) (vs2_1 s), vs3 s).
Proof.
  induction n as [|n IH]; intros s Hk H0; rewrite unrolled_loop_eq.
  - destruct (Z.leb_spec 128 (k s)); [lia|]. reflexivity.
  - destruct (Z.leb_spec 128 (k s)); [|lia].
    rewrite IH; [| rewrite k_unrolled_iter; lia | reflexivity].
    replace (2 * S n)%nat with (S (S (2 * n))) by lia.
    rewrite !sub_block_regs_S. cbn [fold_left one_sub_block].
    cbn [buf vs1 vs2 vs3 vs2_1 unrolled_iter unrolled_second unrolled_first advance128].
    rewrite ptr_add_add by lia. change (64 + 64) with 128.
    change (vs1_0 (advance128 s)) with (vs1_0 s). rewrite H0.
    do 3 f_equal.
    rewrite !dpbusd_add.
    rewrite <- add32_assoc. f_equal. apply add32_right_comm.
Qed.

Lemma chunk_len_div (n : Z) (m : nat) :
  chunk_len n = 64 * Z.of_nat m -> Z.to_nat (chunk_len n / 64) = m.
Proof. intros ->. lia. Qed.

Lemma sub_blocks_fold (st : vars) :
  64 <= len st ->
  let s2 := sub_blocks (chunk_begin st) in
  (vs1 s2, _mm512_add_epi32 (vs2 s2) (vs2_1 s2), vs3 s2)
  = fold_left one_sub_block
              (sub_block_regs (buf st) (Z.to_nat (chunk_len (len st) / 64)))
              (vs1 st, _mm512_add_epi32 (vs2 st) zero, zero).
Proof.
  intros Hlen s2. subst s2. unfold sub_blocks.
  destruct (chunk_len_spec (len st) Hlen) as (m & Hm & _).
  rewrite (chunk_len_div _ _ Hm).
  destruct (peel_cases (chunk_begin st) m Hm)
    as (n & Hn & [(_ & E & Em) | (Hr & _ & _ & Em)]).
  - rewrite E in *. rewrite (unrolled_fold n _ Hn eq_refl). subst m. reflexivity.
  - rewrite (unrolled_fold n _ Hn).
    + subst m. replace (2 * n + 1)%nat with (S (2 * n)) by lia.
      rewrite sub_block_regs_S. cbn [fold_left one_sub_block].
      unfold peel. destruct (Z.eqb_spec (Z.rem (k (chunk_begin st)) 128) 0);
        [contradiction|].
      cbn [buf vs1 vs2 vs3 vs2_1 vs1_0 chunk_begin]. do 3 f_equal.
      rewrite !dpbusd_add. apply add32_right_comm.
    + unfold peel. destruct (Z.eqb_spec (Z.rem (k (chunk_begin st)) 128) 0);
        [contradiction | reflexivity].
Qed.

Lemma fold_carry (bl : list m512i) :
  forall s1 s2 s3 : m512i,
    snd (fold_left one_sub_block bl (s1, s2, s3))
    = fold_left _mm512_add_epi32 (byte_sums_before s1 bl) s3.
Proof.
  induction bl as [|b bl IH]; intros s1 s2 s3; [reflexivity|].
  cbn [fold_left one_sub_block byte_sums_before]. apply IH.
Qed.

Lemma add32_zero_head (x : Z) :
  0 <= x < 2 ^ 32 ->
  _mm512_add_epi32 (_mm512_zextsi128_si512 (_mm_cvtsi32_si128 x)) zero
  = _mm512_zextsi128_si512 (_mm_cvtsi32_si128 x).
Proof.
  intros Hx. unfold _mm512_add_epi32, _mm512_zextsi128_si512, _mm_cvtsi32_si128, zero,
    _mm512_setzero_si512.
  cbn [app repeat zip_with]. unfold wrap, machine.
  rewrite Z.add_0_r, Z.mod_small by lia. reflexivity.
Qed.

(** The chunk of the source against the chunk taken one sub-block at a
    time. *)
Lemma chunk_refines (st : vars) :
  64 <= len st ->
  at_head st ->
  0 <= sum2 st < 2 ^ 32 ->
  (adler (chunk st), sum2 (chunk st)) = chunk_one_at_a_time st.
Proof.
  intros Hlen [_ H2] Hs. pose proof (sub_blocks_fold st Hlen) as E. cbv zeta in E.
  rewrite H2, add32_zero_head, <- H2 in E by exact Hs.
  unfold chunk_one_at_a_time. cbv zeta. rewrite <- E.
  unfold chunk, reduce, finish, finish_second, finish_carry, finish_shift.
  cbn [adler sum2 vs1 vs2 vs3 vs2_1]. rewrite add32_right_comm. reflexivity.
Qed.

(** The same on the lanes: the accumulators reduced at the end of the
    chunk. *)
Lemma chunk_refines_lanes (st : vars) :
  64 <= len st ->
  at_head st ->
  0 <= sum2 st < 2 ^ 32 ->
  let F := finish (sub_blocks (chunk_begin st)) in
  let R := fold_left one_sub_block
                     (sub_block_regs (buf st) (Z.to_nat (chunk_len (len st) / 64)))
                     (vs1 st, vs2 st, zero) in
  vs1 F = fst (fst R)
  /\ vs2 F = _mm512_add_epi32 (snd (fst R)) (_mm512_slli_epi32 (snd R) 6).
Proof.
  intros Hlen [_ H2] Hs F R. pose proof (sub_blocks_fold st Hlen) as E. cbv zeta in E.
  rewrite H2, add32_zero_head, <- H2 in E by exact Hs. fold R in E.
  subst F. unfold finish, finish_second, finish_carry, finish_shift.
  cbn [vs1 vs2 vs3 vs2_1]. rewrite <- E. cbn [fst snd].
  split; [reflexivity | apply add32_right_comm].
Qed.

(** ** The contract of the routines the kernel delegates to *)

Lemma at_head_init (s1 s2 : Z) (p : ptr) (n : Z) : at_head (init_vars s1 s2 p n).
Proof. split; reflexivity. Qed.

Lemma vector_path_correct (adler32_len_16 : Z -> ptr -> Z -> Z -> Z)
      (s1 s2 : Z) (B : list byte) (n : Z) :
  tail_contract adler32_len_16 ->
  valid_state (s1, s2) ->
  0 <= n <= Z.of_nat (length B) ->
  vector_path adler32_len_16 s1 s2 (Ptr B) n
  = pack (adler_fold (s1, s2) (firstn (Z.to_nat n) B)).
Proof.
  intros Ht Hv Hn. unfold vector_path.
  destruct (chunk_loop_correct _ (init_vars s1 s2 (Ptr B) n) eq_refl
              (at_head_init _ _ _ _) Hv Hn) as (I1 & I2 & I3 & I4 & I5 & _).
  cbn [len buf adler sum2 init_vars mem] in I2, I3, I4. cbv zeta in I1, I5.
  rewrite I3. cbn [ptr_add]. rewrite Ht; [| exact I5 | exact I1 |].
  - rewrite I4, <- adler_fold_app, firstn_firstn_skipn. do 3 f_equal. lia.
  - rewrite length_skipn. lia.
Qed.

Lemma vnni_correct
      (adler32_sse41 adler32_avx2 : Z -> ptr -> Z -> Z)
      (adler32_len_1 : Z -> ptr -> Z -> Z)
      (adler32_len_16 : Z -> ptr -> Z -> Z -> Z)
      (cfg : build) (adler : Z) (B : list byte) (n : Z) :
  narrow_contract 32 adler32_sse41 ->
  narrow_contract 64 adler32_avx2 ->
  len_1_contract adler32_len_1 ->
  tail_contract adler32_len_16 ->
  valid_state (unpack adler) ->
  0 <= n <= Z.of_nat (length B) ->
  adler32_avx512_vnni adler32_sse41 adler32_avx2 adler32_len_1 adler32_len_16
                      cfg adler (Ptr B) n
  = pack (adler_fold (unpack adler) (firstn (Z.to_nat n) B)).
Proof.
  intros Hsse Havx H1 H16 Hv Hn. unfold adler32_avx512_vnni.
  destruct (X86_SSE41_ADLER32 cfg), (X86_AVX2_ADLER32 cfg); cbn [andb negb];
    destruct (Z.ltb_spec n 32); try (apply Hsse; [exact Hv | lia | lia]);
    destruct (Z.ltb_spec n 64); try (apply Havx; [exact Hv | lia | lia]);
    try (apply (vector_path_correct _ _ _ _ _ H16 Hv Hn)).
  all: destruct (Z.eqb_spec n 1) as [->|]; [apply H1; [exact Hv | lia]|];
    cbn [is_null];
    destruct (Z.ltb_spec n 16); [apply H16; [exact Hv | lia | lia]|];
    apply (vector_path_correct _ _ _ _ _ H16 Hv Hn).
Qed.

Lemma chunk_valid {L : LaneArith} (st : vars) :
  valid_state (adler (chunk st), sum2 (chunk st)).
Proof.
  unfold chunk, reduce, valid_state, BASE. cbn [adler sum2 fst snd].
  split; apply Z.mod_pos_bound; lia.
Qed.

(** The outer loop is the body iterated, at most [len / 64] times, until
    fewer than 64 bytes remain. *)
Lemma chunk_loop_iter {L : LaneArith} (n : nat) :
  forall st : vars,
    Z.to_nat (len st) = n ->
    0 <= len st ->
    (exists i : nat, Z.of_nat i <= len st / 64 /\ chunk_loop st = Nat.iter i chunk st)
    /\ len (chunk_loop st) = len st mod 64.
Proof.
  induction n as [n IH] using (well_founded_induction lt_wf).
  intros st Hn Hlen. rewrite chunk_loop_eq.
  destruct (Z.leb_spec 64 (len st)) as [H64|H64].
  - destruct (chunk_len_spec (len st) H64) as (m & Hm & Hm1 & Hm2 & _).
    pose proof (chunk_len_eq st) as El.
    destruct (IH (Z.to_nat (len (chunk st))) ltac:(lia) (chunk st) eq_refl ltac:(lia))
      as [(i & Hi & Ei) El'].
    split.
    + exists (S i). rewrite Nat.iter_succ_r. split; [|exact Ei]. lia.
    + rewrite El', El, Hm. lia.
  - split; [exists 0%nat; split; [lia | reflexivity] | lia].
Qed.

(** ** The weighted products of a sub-block *)

Lemma zip_add_zero (n : nat) (d : list Z) :
  length d = n -> zip_with Z.add (repeat 0 n) d = d.
Proof.
  revert d. induction n as [|n IH]; intros [|x d] H; simpl in H; try discriminate;
    [reflexivity|].
  cbn [repeat zip_with]. rewrite IH by congruence. reflexivity.
Qed.

Lemma dpbusd_zero (a : m512i) : _mm512_dpbusd_epi32 zero a dot2v = dp a dot2v.
Proof.
  rewrite dpbusd_add.
  assert (E : _mm512_add_epi32 (L := ideal) zero (dp a dot2v) = dp a dot2v).
  { rewrite add_ideal. apply zip_add_zero. apply dp_length. }
  rewrite add_machine; rewrite E; [reflexivity|].
  eapply lanes_le_mono; [|apply lanes_le_dp]. lia.
Qed.

Lemma nth_byte_val (X : list byte) (i : nat) :
  nth i (map byte_val X) 0 = byte_val (nth i X x00).
Proof. change 0 with (byte_val x00). apply map_nth. Qed.

Lemma weighted_sum_64 (X : list byte) :
  length X = 64%nat ->
  sum_list (map (fun i => byte_val (nth i X x00) * (64 - Z.of_nat i)) (seq 0 64))
  = snd (sum_fold (0, 0) X).
Proof.
  intros H.
  do 64 (destruct X as [|? X]; [discriminate H|]).
  destruct X; [|discriminate H].
  cbn [seq map sum_list nth sum_fold fold_left sum_step fst snd]. lia.
Qed.

(** One chunk from reduced sums, and what the next chunk starts from. *)
Lemma chunk_step (st : vars) :
  at_head st ->
  valid_state (adler st, sum2 st) ->
  64 <= len st ->
  len st <= Z.of_nat (length (mem (buf st))) ->
  let c := chunk_len (len st) in
  at_head (chunk st)
  /\ valid_state (adler (chunk st), sum2 (chunk st))
  /\ len (chunk st) = len st - c
  /\ mem (buf (chunk st)) = skipn (Z.to_nat c) (mem (buf st))
  /\ (adler (chunk st), sum2 (chunk st))
     = adler_fold (adler st, sum2 st) (firstn (Z.to_nat c) (mem (buf st))).
Proof.
  intros Hh Hv Hlen Hbuf c. destruct (chunk_frame st Hlen) as (Fb & Fl & Fh & _).
  split; [exact Fh | split; [apply chunk_valid | split; [exact Fl | split]]].
  - rewrite Fb. apply mem_ptr_add.
  - apply chunk_correct; assumption.
Qed.

(** ** The weighted accumulators over a chunk *)

(** Each kernel step that takes a sub-block adds its weighted products to
    one of the two weighted accumulators. *)
Lemma peel_weighted (s : vars) :
  Z.rem (k s) 128 <> 0 ->
  vs2 (peel s)
  = _mm512_add_epi32 (vs2 s)
      (_mm512_dpbusd_epi32 zero (_mm512_loadu_si512 (buf s)) dot2v)
  /\ vs2_1 (peel s) = vs2_1 s.
Proof.
  intros H. unfold peel. destruct (Z.eqb_spec (Z.rem (k s) 128) 0); [contradiction|].
  cbn [vs2 vs2_1]. rewrite dpbusd_zero. split; [apply dpbusd_add | reflexivity].
Qed.

Lemma unrolled_iter_weighted (s : vars) :
  vs2 (unrolled_iter s)
  = _mm512_add_epi32 (vs2 s)
      (_mm512_dpbusd_epi32 zero (_mm512_loadu_si512 (buf s)) dot2v)
  /\ vs2_1 (unrolled_iter s)
     = _mm512_add_epi32 (vs2_1 s)
         (_mm512_dpbusd_epi32 zero (_mm512_loadu_si512 (ptr_add (buf s) 64)) dot2v).
Proof.
  cbn [vs2 vs2_1 unrolled_iter unrolled_second unrolled_first advance128].
  rewrite !dpbusd_zero. split; apply dpbusd_add.
Qed.

Lemma fold_weighted (bl : list m512i) :
  forall s1 s2 s3 : m512i,
    snd (fst (fold_left one_sub_block bl (s1, s2, s3)))
    = fold_left (fun acc vbuf =>
                   _mm512_add_epi32 acc (_mm512_dpbusd_epi32 zero vbuf dot2v)) bl s2.
Proof.
  induction bl as [|b bl IH]; intros s1 s2 s3; [reflexivity|].
  cbn [fold_left one_sub_block]. rewrite IH, dpbusd_zero, dpbusd_add. reflexivity.
Qed.

(** The two weighted accumulators of a chunk, counted together, have
    received the weighted products of every sub-block of the chunk. *)
Lemma sub_blocks_weighted (st : vars) :
  at_head st ->
  0 <= sum2 st < 2 ^ 32 ->
  64 <= len st ->
  let s2 := sub_blocks (chunk_begin st) in
  _mm512_add_epi32 (vs2 s2) (vs2_1 s2)
  = fold_left (fun acc vbuf =>
                 _mm512_add_epi32 acc (_mm512_dpbusd_epi32 zero vbuf dot2v))
              (sub_block_regs (buf st) (Z.to_nat (chunk_len (len st) / 64)))
              (vs2 st).
Proof.
  intros [_ H2] Hs Hlen s2. subst s2.
  pose proof (sub_blocks_fold st Hlen) as E. cbv zeta in E.
  rewrite H2, add32_zero_head, <- H2 in E by exact Hs.
  rewrite <- fold_weighted with (s1 := vs1 st) (s3 := zero). rewrite <- E. reflexivity.
Qed.

Lemma nth_firstn_lt {A} (l : list A) (d : A) (n i : nat) :
  (i < n)%nat -> nth i (firstn n l) d = nth i l d.
Proof.
  revert l i. induction n as [|n IH]; intros l i Hi; [lia|].
  destruct l as [|x l]; [reflexivity|]. destruct i as [|i]; [reflexivity|].
  cbn [firstn nth]. apply IH. lia.
Qed.

Lemma nth_skipn_add {A} (l : list A) (d : A) (n i : nat) :
  nth i (skipn n l) d = nth (n + i) l d.
Proof.
  revert l. induction n as [|n IH]; intros l; [reflexivity|].
  destruct l as [|x l]; [destruct i; reflexivity|]. cbn [skipn Nat.add nth]. apply IH.
Qed.

(** The weighted products of a loaded sub-block, byte by byte. *)
Lemma dp_load_weighted (p : ptr) :
  (64 <= length (mem p))%nat ->
  sum_list (_mm512_dpbusd_epi32 zero (_mm512_loadu_si512 p) dot2v)
  = weighted_bytes (mem p) 0.
Proof.
  intros Hp. rewrite dpbusd_zero, (dp_load p Hp).
  rewrite <- weighted_sum_64 by (apply firstn_64_length; exact Hp).
  unfold weighted_bytes. f_equal. apply map_ext_in. intros i Hi. apply in_seq in Hi.
  rewrite nth_firstn_lt by lia. reflexivity.
Qed.

Lemma weighted_bytes_skipn (B : list byte) (j : nat) :
  weighted_bytes (skipn 64 B) j = weighted_bytes B (S j).
Proof.
  unfold weighted_bytes. f_equal. apply map_ext. intros i.
  rewrite nth_skipn_add. do 3 f_equal. lia.
Qed.

Lemma length_add32 (a b : m512i) :
  length a = 16%nat -> length b = 16%nat -> length (_mm512_add_epi32 a b) = 16%nat.
Proof. intros Ha Hb. unfold _mm512_add_epi32. rewrite zip_with_length; congruence. Qed.

(** Over the sub-blocks of a chunk no lane of the weighted accumulator
    wraps, and its lanes add up to what they held plus the weighted bytes of
    every sub-block. *)
Lemma weighted_fold_sum (m : nat) :
  forall (p : ptr) (acc : m512i) (b : Z),
    length acc = 16%nat ->
    lanes_le b acc ->
    b + 65280 * Z.of_nat m <= 2 ^ 32 - 1 ->
    (64 * m <= length (mem p))%nat ->
    sum_list (fold_left (fun acc vbuf =>
                           _mm512_add_epi32 acc (_mm512_dpbusd_epi32 zero vbuf dot2v))
                        (sub_block_regs p m) acc)
    = sum_list acc + sum_list (map (weighted_bytes (mem p)) (seq 0 m)).
Proof.
  induction m as [|m IH]; intros p acc b Hl Hb Hm Hp.
  - cbn [sub_block_regs seq map fold_left sum_list]. unfold sub_block_regs. cbn. lia.
  - rewrite sub_block_regs_S. cbn [fold_left].
    assert (Hr : lanes_le (b + 65280)
                   (_mm512_add_epi32 (L := ideal) acc
                      (_mm512_dpbusd_epi32 zero (_mm512_loadu_si512 p) dot2v))).
    { rewrite dpbusd_zero. apply lanes_le_add; [exact Hb | apply lanes_le_dp]. }
    assert (Em : _mm512_add_epi32 acc
                   (_mm512_dpbusd_epi32 zero (_mm512_loadu_si512 p) dot2v)
                 = _mm512_add_epi32 (L := ideal) acc
                     (_mm512_dpbusd_epi32 zero (_mm512_loadu_si512 p) dot2v)).
    { apply add_machine. eapply lanes_le_mono; [|exact Hr]. lia. }
    rewrite (IH (ptr_add p 64) _ (b + 65280)).
    + rewrite Em, sum_add_ideal by (try exact Hl; rewrite dpbusd_zero; apply dp_length).
      rewrite dp_load_weighted by lia.
      cbn [seq map sum_list]. rewrite <- seq_shift, map_map.
      rewrite mem_ptr_add. change (Z.to_nat 64) with 64%nat.
      rewrite (map_ext _ _ (weighted_bytes_skipn (mem p))). lia.
    + apply length_add32; [exact Hl | rewrite dpbusd_zero; apply dp_length].
    + rewrite Em. exact Hr.
    + lia.
    + rewrite mem_ptr_add, length_skipn. lia.
Qed.

Lemma at_head_vs2 (st : vars) :
  at_head st -> 0 <= sum2 st < 2 ^ 16 ->
  length (vs2 st) = 16%nat /\ lanes_le (2 ^ 16) (vs2 st) /\ sum_list (vs2 st) = sum2 st.
Proof.
  intros [_ H2] Hs. rewrite H2.
  unfold _mm512_zextsi128_si512, _mm_cvtsi32_si128, lanes_le.
  cbn [app repeat length sum_list].
  split; [reflexivity | split; [repeat constructor; lia | lia]].
Qed.

Lemma chunk_weighted_sum (st : vars) :
  at_head st ->
  0 <= sum2 st < 2 ^ 16 ->
  64 <= len st ->
  len st <= Z.of_nat (length (mem (buf st))) ->
  let m := Z.to_nat (chunk_len (len st) / 64) in
  let s2 := sub_blocks (chunk_begin st) in
  sum_list (_mm512_add_epi32 (vs2 s2) (vs2_1 s2))
  = sum2 st + sum_list (map (weighted_bytes (mem (buf st))) (seq 0 m)).
Proof.
  intros Hh Hs Hlen Hbuf m s2. subst m s2.
  rewrite sub_blocks_weighted by (try assumption; lia).
  destruct (chunk_len_spec (len st) Hlen) as (m & Hm & Hm1 & Hm2 & _).
  rewrite (chunk_len_div _ _ Hm).
  destruct (at_head_vs2 st Hh Hs) as (Hl & Hb & Hsum).
  rewrite (weighted_fold_sum m (buf st) (vs2 st) (2 ^ 16)); [lia | exact Hl | exact Hb | lia | lia].
Qed.

(** * The properties of the specification *)

Lemma narrow_checksum_contract (bound : Z) : narrow_contract bound narrow_checksum.
Proof. intros adler B n _ _ _. reflexivity. Qed.

Lemma tail_checksum_1_contract : len_1_contract tail_checksum_1.
Proof. intros s1 s2 B _ _. reflexivity. Qed.

Lemma tail_checksum_contract : tail_contract tail_checksum.
Proof. intros s1 s2 B n _ _ _. reflexivity. Qed.

(** C1. Equivalence with the sequential definition: for every valid initial
    state, every buffer and every length (in particular every length from 0 to
    4 * NMAX + 137, and beyond), the value [adler32_avx512_vnni] returns is
    the sequential Adler-32 recurrence folded over the first [n] bytes of the
    buffer from that state, whatever the build configuration, provided the
    narrower kernels and the scalar routines it delegates to satisfy the same
    contract on the lengths they are called with. *)
Theorem adler32_avx512_vnni_equivalence
      (adler32_sse41 adler32_avx2 : Z -> ptr -> Z -> Z)
      (adler32_len_1 : Z -> ptr -> Z -> Z)
      (adler32_len_16 : Z -> ptr -> Z -> Z -> Z)
      (cfg : build) (adler : Z) (B : list byte) (n : Z) :
  narrow_contract 32 adler32_sse41 ->
  narrow_contract 64 adler32_avx2 ->
  len_1_contract adler32_len_1 ->
  tail_contract adler32_len_16 ->
  valid_state (unpack adler) ->
  0 <= n <= Z.of_nat (length B) ->
  adler32_avx512_vnni adler32_sse41 adler32_avx2 adler32_len_1 adler32_len_16
                      cfg adler (Ptr B) n
  = pack (adler_fold (unpack adler) (firstn (Z.to_nat n) B)).
Proof. apply vnni_correct. Qed.

Lemma adler32_avx512_vnni_equivalence_witness :
  valid_state (unpack 1)
  /\ 0 <= 200 <= Z.of_nat (length (repeat xff 200))
  /\ vnni no_narrow 1 (Ptr (repeat xff 200)) 200
     = pack (adler_fold (unpack 1) (firstn (Z.to_nat 200) (repeat xff 200))).
Proof.
  assert (Hv : valid_state (unpack 1)) by (vm_compute; repeat split; discriminate).
  assert (Hn : 0 <= 200 <= Z.of_nat (length (repeat xff 200)))
    by (rewrite repeat_length; lia).
  split; [exact Hv | split; [exact Hn |]].
  apply (adler32_avx512_vnni_equivalence
           narrow_checksum narrow_checksum tail_checksum_1 tail_checksum
           no_narrow 1 (repeat xff 200) 200).
  - intros adler B n _ _ _. reflexivity.
  - intros adler B n _ _ _. reflexivity.
  - intros s1 s2 B _ _. reflexivity.
  - intros s1 s2 B n _ _ _. reflexivity.
  - exact Hv.
  - exact Hn.
Defined.

(** C2. Composability: for every buffer [B], every split offset
    [0 <= k <= length B] and every valid initial state, the checksum of the
    first [k] bytes, fed as the initial state of a second call on the
    remaining bytes, is the checksum of one call over the whole buffer (the
    delegated routines satisfying their contract). *)
Theorem adler32_avx512_vnni_composable
      (adler32_sse41 adler32_avx2 : Z -> ptr -> Z -> Z)
      (adler32_len_1 : Z -> ptr -> Z -> Z)
      (adler32_len_16 : Z -> ptr -> Z -> Z -> Z)
      (cfg : build) (adler : Z) (B : list byte) (k : Z) :
  narrow_contract 32 adler32_sse41 ->
  narrow_contract 64 adler32_avx2 ->
  len_1_contract adler32_len_1 ->
  tail_contract adler32_len_16 ->
  valid_state (unpack adler) ->
  0 <= k <= Z.of_nat (length B) ->
  let f := adler32_avx512_vnni adler32_sse41 adler32_avx2 adler32_len_1
                               adler32_len_16 cfg in
  f (f adler (Ptr B) k) (ptr_add (Ptr B) k) (Z.of_nat (length B) - k)
  = f adler (Ptr B) (Z.of_nat (length B)).
Proof.
  intros Hsse Havx H1 H16 Hv Hk f. subst f. cbn [ptr_add].
  pose proof (adler_fold_valid _ (firstn (Z.to_nat k) B) Hv) as Hv'.
  rewrite (vnni_correct _ _ _ _ cfg adler B k) by (assumption || lia).
  rewrite !vnni_correct; try assumption.
  - rewrite unpack_pack by exact Hv'.
    rewrite <- adler_fold_app, firstn_firstn_skipn. do 3 f_equal. lia.
  - lia.
  - rewrite unpack_pack; exact Hv'.
  - rewrite length_skipn. lia.
Qed.

Lemma adler32_avx512_vnni_composable_witness :
  vnni no_narrow (vnni no_narrow 1 (Ptr (repeat xff 200)) 77)
       (ptr_add (Ptr (repeat xff 200)) 77) (Z.of_nat (length (repeat xff 200)) - 77)
  = vnni no_narrow 1 (Ptr (repeat xff 200)) (Z.of_nat (length (repeat xff 200))).
Proof.
  apply (adler32_avx512_vnni_composable
           narrow_checksum narrow_checksum tail_checksum_1 tail_checksum
           no_narrow 1 (repeat xff 200) 77).
  - intros adler B n _ _ _. reflexivity.
  - intros adler B n _ _ _. reflexivity.
  - intros s1 s2 B _ _. reflexivity.
  - intros s1 s2 B n _ _ _. reflexivity.
  - vm_compute. repeat split; discriminate.
  - rewrite repeat_length. lia.
Defined.

(** C10. Without the narrower kernels compiled in, a call with a NULL
    buffer and a length other than 1 returns 1, whatever the initial checksum
    and the length: the initial sums are discarded. *)
Theorem adler32_avx512_vnni_null
      (adler32_sse41 adler32_avx2 : Z -> ptr -> Z -> Z)
      (adler32_len_1 : Z -> ptr -> Z -> Z)
      (adler32_len_16 : Z -> ptr -> Z -> Z -> Z)
      (cfg : build) (adler : Z) (n : Z) :
  X86_SSE41_ADLER32 cfg = false ->
  X86_AVX2_ADLER32 cfg = false ->
  n <> 1 ->
  adler32_avx512_vnni adler32_sse41 adler32_avx2 adler32_len_1 adler32_len_16
                      cfg adler NULL n = 1.
Proof.
  intros Hs Ha Hn. unfold adler32_avx512_vnni. rewrite Hs, Ha. cbn [andb negb is_null].
  destruct (Z.eqb_spec n 1); [contradiction | reflexivity].
Qed.

Lemma adler32_avx512_vnni_null_witness :
  vnni no_narrow 0x12345678 NULL 4096 = 1.
Proof.
  apply (adler32_avx512_vnni_null
           narrow_checksum narrow_checksum tail_checksum_1 tail_checksum
           no_narrow 0x12345678 4096).
  - reflexivity.
  - reflexivity.
  - discriminate.
Defined.

(** C9. Termination and the tail: every iteration of the outer loop takes at
    least 64 bytes off the remaining length (the chunk length is at least 64
    when 64 bytes or more remain), so the loop is its body iterated at most
    [n / 64] times; it leaves fewer than 64 bytes, and on a call of 64 bytes or
    more the function returns, as it is, what the tail handler returns on the
    sums, the pointer and the length the loop leaves. *)
Theorem adler32_avx512_vnni_terminates
      (adler32_sse41 adler32_avx2 : Z -> ptr -> Z -> Z)
      (adler32_len_1 : Z -> ptr -> Z -> Z)
      (adler32_len_16 : Z -> ptr -> Z -> Z -> Z)
      (cfg : build) (adler0 : Z) (B : list byte) (n : Z) :
  64 <= n ->
  let st0 := init_vars (Z.land adler0 0xffff) (Z.land (Z.shiftr adler0 16) 0xffff)
                       (Ptr B) n in
  let st' := chunk_loop st0 in
  (forall st : vars,
      64 <= len st ->
      64 <= chunk_len (len st) /\ 0 <= len (chunk st) <= len st - 64)
  /\ (exists i : nat, Z.of_nat i <= n / 64 /\ st' = Nat.iter i chunk st0)
  /\ len st' = n mod 64
  /\ 0 <= len st' < 64
  /\ adler32_avx512_vnni adler32_sse41 adler32_avx2 adler32_len_1 adler32_len_16
                         cfg adler0 (Ptr B) n
     = adler32_len_16 (adler st') (buf st') (len st') (sum2 st').
Proof.
  intros Hn st0 st'.
  destruct (chunk_loop_iter _ st0 eq_refl) as [Hi Hl]; [cbn [len st0 init_vars]; lia|].
  cbn [len st0 init_vars] in Hi, Hl. fold st' in Hi, Hl.
  split; [|split; [exact Hi | split; [exact Hl | split; [lia|]]]].
  - intros st Hst. rewrite chunk_len_eq.
    destruct (chunk_len_spec (len st) Hst) as (m & Hm & Hm1 & Hm2 & _). lia.
  - unfold adler32_avx512_vnni.
    destruct (Z.ltb_spec n 32); [lia|]. destruct (Z.ltb_spec n 64); [lia|].
    destruct (Z.eqb_spec n 1); [lia|]. destruct (Z.ltb_spec n 16); [lia|].
    rewrite !andb_false_r. cbn [is_null].
    destruct (negb (X86_AVX2_ADLER32 cfg) && negb (X86_SSE41_ADLER32 cfg)); reflexivity.
Qed.

Lemma adler32_avx512_vnni_terminates_witness :
  let st0 := init_vars (Z.land 1 0xffff) (Z.land (Z.shiftr 1 16) 0xffff)
                       (Ptr (repeat xff 200)) 200 in
  let st' := chunk_loop st0 in
  (forall st : vars,
      64 <= len st ->
      64 <= chunk_len (len st) /\ 0 <= len (chunk st) <= len st - 64)
  /\ (exists i : nat, Z.of_nat i <= 200 / 64 /\ st' = Nat.iter i chunk st0)
  /\ len st' = 200 mod 64
  /\ 0 <= len st' < 64
  /\ vnni all_narrow 1 (Ptr (repeat xff 200)) 200
     = tail_checksum (adler st') (buf st') (len st') (sum2 st').
Proof.
  apply (adler32_avx512_vnni_terminates
           narrow_checksum narrow_checksum tail_checksum_1 tail_checksum
           all_narrow 1 (repeat xff 200) 200).
  lia.
Defined.

(** C6. The bytes of a chunk: an iteration of the outer loop consumes
    [min (len, NMAX)] rounded down to a multiple of 64 bytes, between 64 and
    [NMAX], before it reduces the sums; the pointer moves by that many bytes
    and the length drops by as many, so that the excess of [min (len, NMAX)]
    over the chunk, less than one sub-block, stays in the remaining length;
    and from reduced sums the sums after the chunk are those of exactly these
    bytes. *)
Theorem chunk_consumes (st : vars) :
  64 <= len st ->
  let c := 64 * (Z.min (len st) NMAX / 64) in
  k (chunk_begin st) = c
  /\ 64 <= c <= NMAX
  /\ buf (chunk st) = ptr_add (buf st) c
  /\ len (chunk st) = len st - c
  /\ k (chunk st) = 0
  /\ Z.min (len st) NMAX - c = Z.min (len st) NMAX mod 64
  /\ Z.min (len st) NMAX mod 64 <= len (chunk st)
  /\ (at_head st -> valid_state (adler st, sum2 st) ->
      len st <= Z.of_nat (length (mem (buf st))) ->
      (adler (chunk st), sum2 (chunk st))
      = adler_fold (adler st, sum2 st) (firstn (Z.to_nat c) (mem (buf st)))).
Proof.
  intros Hlen c.
  destruct (chunk_len_spec (len st) Hlen) as (m & Hm & Hm1 & Hm2 & Hm3).
  assert (Ec : chunk_len (len st) = c) by (subst c; lia).
  destruct (chunk_frame st Hlen) as (Fb & Fl & _).
  rewrite Ec in Fb, Fl.
  assert (Hc : 64 <= c <= NMAX) by (unfold NMAX in *; lia).
  split; [exact Ec | split; [exact Hc | split; [exact Fb | split; [exact Fl |]]]].
  split; [|split; [lia | split; [lia|]]].
  - unfold chunk, sub_blocks.
    cbn [k reduce finish finish_second finish_carry finish_shift].
    destruct (peel_cases (chunk_begin st) m Hm) as (n & Hn & _).
    apply (unrolled_frame n _ Hn).
  - intros Hh Hv Hbuf. rewrite <- Ec. apply chunk_correct; assumption.
Qed.

Lemma chunk_consumes_witness :
  let st := init_vars 1 0 (Ptr (repeat xff 200)) 200 in
  let c := 64 * (Z.min (len st) NMAX / 64) in
  k (chunk_begin st) = c
  /\ 64 <= c <= NMAX
  /\ buf (chunk st) = ptr_add (buf st) c
  /\ len (chunk st) = len st - c
  /\ k (chunk st) = 0
  /\ Z.min (len st) NMAX - c = Z.min (len st) NMAX mod 64
  /\ Z.min (len st) NMAX mod 64 <= len (chunk st)
  /\ (at_head st -> valid_state (adler st, sum2 st) ->
      len st <= Z.of_nat (length (mem (buf st))) ->
      (adler (chunk st), sum2 (chunk st))
      = adler_fold (adler st, sum2 st) (firstn (Z.to_nat c) (mem (buf st)))).
Proof.
  apply (chunk_consumes (init_vars 1 0 (Ptr (repeat xff 200)) 200)).
  cbn [len init_vars]. lia.
Defined.

(** C7. The end of a chunk: the byte-sum accumulator is reduced
    horizontally into [adler] and the weighted accumulator into [sum2]; the
    two totals are the sums of the chunk's bytes on top of the sums the chunk
    was entered with (which sat in lane 0); both are reduced modulo [BASE];
    and the next accumulators hold the reduced sums in lane 0 and zero in
    the other fifteen lanes.  Hence, from reduced sums, the sums are in
    [0, BASE) after every number of chunks and when the loop hands over to the
    tail handler. *)
Theorem chunk_reduces (st : vars) :
  at_head st ->
  valid_state (adler st, sum2 st) ->
  64 <= len st ->
  len st <= Z.of_nat (length (mem (buf st))) ->
  let F := finish (sub_blocks (chunk_begin st)) in
  let X := firstn (Z.to_nat (chunk_len (len st))) (mem (buf st)) in
  adler (chunk st) = partial_hsum (vs1 F) mod BASE
  /\ sum2 (chunk st) = _mm512_reduce_add_epu32 (vs2 F) mod BASE
  /\ partial_hsum (vs1 F) = fst (sum_fold (adler st, sum2 st) X)
  /\ _mm512_reduce_add_epu32 (vs2 F) = snd (sum_fold (adler st, sum2 st) X)
  /\ BASE = 65521
  /\ vs1 (chunk st) = adler (chunk st) :: repeat 0 15
  /\ vs2 (chunk st) = sum2 (chunk st) :: repeat 0 15
  /\ (forall i : nat,
         valid_state (adler (Nat.iter i chunk st), sum2 (Nat.iter i chunk st)))
  /\ valid_state (adler (chunk_loop st), sum2 (chunk_loop st)).
Proof.
  intros Hh Hv Hlen Hbuf F X.
  destruct (chunk_no_overflow st Hh Hv Hlen Hbuf) as (HR & _ & B1 & B2 & _).
  destruct (sub_blocks_machine st Hlen HR) as [_ EF]. fold F in EF.
  destruct (chunk_ideal_sums st Hh Hlen Hbuf) as (S1 & S2 & _). fold X in S1, S2.
  rewrite <- EF in S1, S2, B1, B2.
  assert (RF : accs_in_range F).
  { rewrite EF. unfold chunk_trace in HR. cbv zeta in HR.
    inversion HR as [|s0 t0 _ HR1]; subst. inversion HR1 as [|s1 t1 _ HR2]; subst.
    apply Forall_app in HR2. destruct HR2 as [_ HR3].
    inversion HR3 as [|s2 t2 _ HR4]; subst. inversion HR4 as [|s3 t3 _ HR5]; subst.
    inversion HR5 as [|s4 t4 R4 _]; subst. exact R4. }
  destruct RF as (R1 & R2 & _).
  assert (Hiter : forall i : nat,
             valid_state (adler (Nat.iter i chunk st), sum2 (Nat.iter i chunk st))).
  { intros [|i]; [exact Hv | apply chunk_valid]. }
  split; [reflexivity | split; [reflexivity |]].
  split; [rewrite partial_hsum_machine, partial_hsum_ideal by (assumption || lia);
          exact S1 |].
  split; [rewrite reduce_add_machine, reduce_add_ideal by (assumption || lia);
          exact S2 |].
  split; [reflexivity |].
  split; [unfold chunk, reduce; cbn [vs1 adler]; reflexivity |].
  split; [unfold chunk, reduce; cbn [vs2 sum2]; reflexivity |].
  split; [exact Hiter |].
  destruct (chunk_loop_iter _ st eq_refl ltac:(lia)) as [(i & _ & ->) _]. apply Hiter.
Qed.

Lemma chunk_reduces_witness :
  let st := init_vars 1 0 (Ptr (repeat xff 200)) 200 in
  let F := finish (sub_blocks (chunk_begin st)) in
  let X := firstn (Z.to_nat (chunk_len (len st))) (mem (buf st)) in
  adler (chunk st) = partial_hsum (vs1 F) mod BASE
  /\ sum2 (chunk st) = _mm512_reduce_add_epu32 (vs2 F) mod BASE
  /\ partial_hsum (vs1 F) = fst (sum_fold (adler st, sum2 st) X)
  /\ _mm512_reduce_add_epu32 (vs2 F) = snd (sum_fold (adler st, sum2 st) X)
  /\ BASE = 65521
  /\ vs1 (chunk st) = adler (chunk st) :: repeat 0 15
  /\ vs2 (chunk st) = sum2 (chunk st) :: repeat 0 15
  /\ (forall i : nat,
         valid_state (adler (Nat.iter i chunk st), sum2 (Nat.iter i chunk st)))
  /\ valid_state (adler (chunk_loop st), sum2 (chunk_loop st)).
Proof.
  apply (chunk_reduces (init_vars 1 0 (Ptr (repeat xff 200)) 200)).
  - split; reflexivity.
  - vm_compute. repeat split; discriminate.
  - cbn [len init_vars]. lia.
  - cbn [len buf mem init_vars]. rewrite repeat_length. lia.
Defined.

(** C3. The carry accumulator: over the sub-blocks of a chunk, taken in
    order, the carry receives the value the byte-sum accumulator has before
    each sub-block (and the weighted accumulators that sub-block's weighted
    bytes), so that after the sub-blocks it is the lane-wise sum of these
    previous byte sums; it is then multiplied by 64, the sub-block width, by a
    left shift by 6, and added to the weighted accumulator, and the horizontal
    reduction of [sum2] is taken of the result. *)
Theorem carry_accumulator (st : vars) :
  64 <= len st ->
  let s := sub_blocks (chunk_begin st) in
  let bl := sub_block_regs (buf st) (Z.to_nat (chunk_len (len st) / 64)) in
  (vs1 s, _mm512_add_epi32 (vs2 s) (vs2_1 s), vs3 s)
  = fold_left one_sub_block bl (vs1 st, _mm512_add_epi32 (vs2 st) zero, zero)
  /\ vs3 s = fold_left _mm512_add_epi32 (byte_sums_before (vs1 st) bl) zero
  /\ vs3 (finish s) = map (fun x => (64 * x) mod 2 ^ 32) (vs3 s)
  /\ vs2 (finish s)
     = _mm512_add_epi32 (_mm512_add_epi32 (vs2 s) (vs3 (finish s))) (vs2_1 s)
  /\ sum2 (chunk st) = _mm512_reduce_add_epu32 (vs2 (finish s)) mod BASE.
Proof.
  intros Hlen s bl. pose proof (sub_blocks_fold st Hlen) as E. cbv zeta in E.
  fold s in E. fold bl in E.
  split; [exact E | split; [| split; [| split; reflexivity]]].
  - rewrite <- fold_carry with (s2 := _mm512_add_epi32 (vs2 st) zero).
    rewrite <- E. reflexivity.
  - cbn [vs3 finish finish_second finish_carry finish_shift].
    unfold _mm512_slli_epi32. apply map_ext. intros x.
    unfold wrap, machine. rewrite Z.shiftl_mul_pow2 by lia. f_equal. lia.
Qed.

Lemma carry_accumulator_witness :
  let st := init_vars 1 0 (Ptr (repeat xff 200)) 200 in
  let s := sub_blocks (chunk_begin st) in
  let bl := sub_block_regs (buf st) (Z.to_nat (chunk_len (len st) / 64)) in
  (vs1 s, _mm512_add_epi32 (vs2 s) (vs2_1 s), vs3 s)
  = fold_left one_sub_block bl (vs1 st, _mm512_add_epi32 (vs2 st) zero, zero)
  /\ vs3 s = fold_left _mm512_add_epi32 (byte_sums_before (vs1 st) bl) zero
  /\ vs3 (finish s) = map (fun x => (64 * x) mod 2 ^ 32) (vs3 s)
  /\ vs2 (finish s)
     = _mm512_add_epi32 (_mm512_add_epi32 (vs2 s) (vs3 (finish s))) (vs2_1 s)
  /\ sum2 (chunk st) = _mm512_reduce_add_epu32 (vs2 (finish s)) mod BASE.
Proof.
  apply (carry_accumulator (init_vars 1 0 (Ptr (repeat xff 200)) 200)).
  cbn [len init_vars]. lia.
Defined.

(** C8. Peeling and unrolling: when the length of a chunk is not a multiple
    of 128, exactly one sub-block of 64 bytes is taken before the unrolled
    loop, which leaves a multiple of 128 (and none is taken otherwise), and
    the unrolled loop is its two-sub-block body iterated over what is left;
    and the chunk so processed, with a second weighted accumulator added at
    the end, gives lane for lane the accumulators, and so the sums, of the
    same chunk processed one sub-block at a time, in order. *)
Theorem peel_and_unroll (st : vars) :
  64 <= len st ->
  at_head st ->
  0 <= sum2 st < 2 ^ 32 ->
  let s0 := chunk_begin st in
  (Z.rem (k s0) 128 <> 0 ->
   k (peel s0) = k s0 - 64 /\ buf (peel s0) = ptr_add (buf s0) 64
   /\ Z.rem (k (peel s0)) 128 = 0)
  /\ (Z.rem (k s0) 128 = 0 -> peel s0 = s0)
  /\ (exists n : nat, k (peel s0) = 128 * Z.of_nat n
                      /\ unrolled_loop (peel s0) = Nat.iter n unrolled_iter (peel s0))
  /\ (let F := finish (sub_blocks s0) in
      let R := fold_left one_sub_block
                         (sub_block_regs (buf st) (Z.to_nat (chunk_len (len st) / 64)))
                         (vs1 st, vs2 st, zero) in
      vs1 F = fst (fst R)
      /\ vs2 F = _mm512_add_epi32 (snd (fst R)) (_mm512_slli_epi32 (snd R) 6))
  /\ (adler (chunk st), sum2 (chunk st)) = chunk_one_at_a_time st.
Proof.
  intros Hlen Hh Hs s0.
  destruct (chunk_len_spec (len st) Hlen) as (m & Hm & _).
  destruct (peel_cases s0 m Hm) as (n & Hn & Hcases).
  split; [|split; [|split; [|split]]].
  - intros Hr. destruct Hcases as [(E & _) | (_ & E1 & E2 & _)]; [contradiction|].
    split; [exact E1 | split; [exact E2 |]]. rewrite Hn, Z.rem_mod_nonneg; lia.
  - intros Hr. destruct Hcases as [(_ & E & _) | (E & _)]; [exact E | contradiction].
  - exists n. split; [exact Hn|]. clear Hcases. revert Hn. generalize (peel s0).
    induction n as [|n IH]; intros s Hn; rewrite unrolled_loop_eq.
    + destruct (Z.leb_spec 128 (k s)); [lia | reflexivity].
    + destruct (Z.leb_spec 128 (k s)); [|lia].
      rewrite Nat.iter_succ_r. apply IH. rewrite k_unrolled_iter. lia.
  - apply chunk_refines_lanes; assumption.
  - apply chunk_refines; assumption.
Qed.

Lemma peel_and_unroll_witness :
  let st := init_vars 1 0 (Ptr (repeat xff 200)) 200 in
  let s0 := chunk_begin st in
  (Z.rem (k s0) 128 <> 0 ->
   k (peel s0) = k s0 - 64 /\ buf (peel s0) = ptr_add (buf s0) 64
   /\ Z.rem (k (peel s0)) 128 = 0)
  /\ (Z.rem (k s0) 128 = 0 -> peel s0 = s0)
  /\ (exists n : nat, k (peel s0) = 128 * Z.of_nat n
                      /\ unrolled_loop (peel s0) = Nat.iter n unrolled_iter (peel s0))
  /\ (let F := finish (sub_blocks s0) in
      let R := fold_left one_sub_block
                         (sub_block_regs (buf st) (Z.to_nat (chunk_len (len st) / 64)))
                         (vs1 st, vs2 st, zero) in
      vs1 F = fst (fst R)
      /\ vs2 F = _mm512_add_epi32 (snd (fst R)) (_mm512_slli_epi32 (snd R) 6))
  /\ (adler (chunk st), sum2 (chunk st)) = chunk_one_at_a_time st.
Proof.
  apply (peel_and_unroll (init_vars 1 0 (Ptr (repeat xff 200)) 200)).
  - cbn [len init_vars]. lia.
  - split; reflexivity.
  - cbn [sum2 init_vars]. lia.
Defined.

(** C4. The weights.  The byte at offset [i] of the weight vector is
    [64 - i], the descending sequence 64, 63, ..., 1 against the bytes of a
    sub-block in the order they are loaded; [_mm512_dpbusd_epi32] adds to each
    lane the four products of its bytes with their weights, so that over the
    sixteen lanes a sub-block contributes the sum of its bytes weighted by
    [64 - i], which is what the sequential recurrence adds to [sum2] over these
    64 bytes, each byte being summed again once for every byte from it to the
    end of the sub-block.  The kernel adds this contribution for every
    sub-block it takes: the peeled sub-block and the first sub-block of an
    unrolled iteration to [vs2], the second one to [vs2_1]; so the two
    weighted accumulators of a chunk entered at the head of the outer loop,
    counted together, are [vs2] plus the contribution of each of the chunk's
    sub-blocks in turn, no lane wraps, and their lanes add up to [sum2] plus,
    for every sub-block [j] of the chunk and every offset [i], the byte at
    [64 * j + i] times [64 - i].  The chunk leaves the next one entered the
    same way, so this holds of every sub-block of every chunk of a call. *)
Theorem dot2v_weights (st : vars) :
  at_head st ->
  0 <= sum2 st < 2 ^ 16 ->
  64 <= len st ->
  len st <= Z.of_nat (length (mem (buf st))) ->
  let m := Z.to_nat (chunk_len (len st) / 64) in
  let s2 := sub_blocks (chunk_begin st) in
  let contribution vbuf := _mm512_dpbusd_epi32 zero vbuf dot2v in
  (forall p : ptr,
      (64 <= length (mem p))%nat ->
      let vbuf := _mm512_loadu_si512 p in
      let X := firstn 64 (mem p) in
      let byte i := byte_val (nth i X x00) in
      (forall i : nat,
          (i < 64)%nat -> epi8 dot2v i = 64 - Z.of_nat i /\ epu8 vbuf i = byte i)
      /\ (forall vs2 : m512i,
             _mm512_dpbusd_epi32 vs2 vbuf dot2v
             = _mm512_add_epi32 vs2 (contribution vbuf))
      /\ (forall j : nat,
             (j < 16)%nat ->
             lane (contribution vbuf) j
             = sum_list (map (fun i => byte (4 * j + i)%nat
                                       * (64 - Z.of_nat (4 * j + i)))
                             (seq 0 4)))
      /\ sum_list (contribution vbuf)
         = sum_list (map (fun i => byte i * (64 - Z.of_nat i)) (seq 0 64))
      /\ sum_list (map (fun i => byte i * (64 - Z.of_nat i)) (seq 0 64))
         = snd (sum_fold (0, 0) X))
  /\ (forall s : vars,
         Z.rem (k s) 128 <> 0 ->
         vs2 (peel s)
         = _mm512_add_epi32 (vs2 s) (contribution (_mm512_loadu_si512 (buf s)))
         /\ vs2_1 (peel s) = vs2_1 s)
  /\ (forall s : vars,
         vs2 (unrolled_iter s)
         = _mm512_add_epi32 (vs2 s) (contribution (_mm512_loadu_si512 (buf s)))
         /\ vs2_1 (unrolled_iter s)
            = _mm512_add_epi32 (vs2_1 s)
                (contribution (_mm512_loadu_si512 (ptr_add (buf s) 64))))
  /\ _mm512_add_epi32 (vs2 s2) (vs2_1 s2)
     = fold_left (fun acc vbuf => _mm512_add_epi32 acc (contribution vbuf))
                 (sub_block_regs (buf st) m) (vs2 st)
  /\ (forall j : nat,
         (j < m)%nat ->
         (64 <= length (mem (ptr_add (buf st) (64 * Z.of_nat j))))%nat
         /\ sum_list (contribution (_mm512_loadu_si512
                                      (ptr_add (buf st) (64 * Z.of_nat j))))
            = weighted_bytes (mem (buf st)) j)
  /\ sum_list (_mm512_add_epi32 (vs2 s2) (vs2_1 s2))
     = sum2 st + sum_list (map (weighted_bytes (mem (buf st))) (seq 0 m))
  /\ (at_head (chunk st)
      /\ 0 <= sum2 (chunk st) < 2 ^ 16
      /\ len (chunk st) <= Z.of_nat (length (mem (buf (chunk st))))).
Proof.
  intros Hh Hs Hlen Hbuf m s2 contribution.
  split; [|split; [|split; [|split; [|split; [|split]]]]].
  - intros p Hp vbuf X byte.
    assert (Hb : forall i : nat, (i < 64)%nat -> epu8 vbuf i = byte i).
    { intros i Hi. subst vbuf byte. cbv beta. rewrite epu8_load by exact Hi.
      apply nth_byte_val. }
    assert (Hw : sum_list (map (fun i => byte i * (64 - Z.of_nat i)) (seq 0 64))
                 = snd (sum_fold (0, 0) X)).
    { apply weighted_sum_64. subst X. apply firstn_64_length. exact Hp. }
    subst contribution. cbv beta.
    split; [|split; [|split; [|split]]].
    + intros i Hi. split; [apply epi8_dot2v; exact Hi | apply Hb; exact Hi].
    + intros vs2. rewrite dpbusd_zero. apply dpbusd_add.
    + intros j Hj. rewrite dpbusd_zero. unfold lane, dp.
      rewrite nth_map_seq by exact Hj. unfold dp_lane. f_equal.
      apply map_ext_in. intros i Hi. apply in_seq in Hi.
      rewrite epi8_dot2v, Hb by lia. reflexivity.
    + rewrite dpbusd_zero, Hw. apply dp_load. exact Hp.
    + exact Hw.
  - exact peel_weighted.
  - exact unrolled_iter_weighted.
  - apply sub_blocks_weighted; [exact Hh | lia | exact Hlen].
  - intros j Hj. subst m contribution. cbv beta.
    destruct (chunk_len_spec (len st) Hlen) as (m & Hm & Hm1 & Hm2 & _).
    rewrite (chunk_len_div _ _ Hm) in Hj.
    assert (Hp : (64 <= length (mem (ptr_add (buf st) (64 * Z.of_nat j))))%nat)
      by (rewrite mem_ptr_add, length_skipn; lia).
    split; [exact Hp|].
    rewrite (dp_load_weighted _ Hp). unfold weighted_bytes. f_equal.
    apply map_ext. intros i. rewrite mem_ptr_add, nth_skipn_add.
    do 3 f_equal. lia.
  - apply chunk_weighted_sum; assumption.
  - destruct (chunk_frame st Hlen) as (Fb & Fl & Fh & _ & Fs).
    destruct (chunk_len_spec (len st) Hlen) as (c & Hc & _ & Hc2 & _).
    split; [exact Fh | split; [unfold BASE in Fs; lia |]].
    rewrite Fb, Fl, mem_ptr_add, length_skipn. lia.
Qed.

Lemma dot2v_weights_witness :
  let st := init_vars 1 0 (Ptr (repeat xff 200)) 200 in
  let m := Z.to_nat (chunk_len (len st) / 64) in
  let s2 := sub_blocks (chunk_begin st) in
  let contribution vbuf := _mm512_dpbusd_epi32 zero vbuf dot2v in
  (forall p : ptr,
      (64 <= length (mem p))%nat ->
      let vbuf := _mm512_loadu_si512 p in
      let X := firstn 64 (mem p) in
      let byte i := byte_val (nth i X x00) in
      (forall i : nat,
          (i < 64)%nat -> epi8 dot2v i = 64 - Z.of_nat i /\ epu8 vbuf i = byte i)
      /\ (forall vs2 : m512i,
             _mm512_dpbusd_epi32 vs2 vbuf dot2v
             = _mm512_add_epi32 vs2 (contribution vbuf))
      /\ (forall j : nat,
             (j < 16)%nat ->
             lane (contribution vbuf) j
             = sum_list (map (fun i => byte (4 * j + i)%nat
                                       * (64 - Z.of_nat (4 * j + i)))
                             (seq 0 4)))
      /\ sum_list (contribution vbuf)
         = sum_list (map (fun i => byte i * (64 - Z.of_nat i)) (seq 0 64))
      /\ sum_list (map (fun i => byte i * (64 - Z.of_nat i)) (seq 0 64))
         = snd (sum_fold (0, 0) X))
  /\ (forall s : vars,
         Z.rem (k s) 128 <> 0 ->
         vs2 (peel s)
         = _mm512_add_epi32 (vs2 s) (contribution (_mm512_loadu_si512 (buf s)))
         /\ vs2_1 (peel s) = vs2_1 s)
  /\ (forall s : vars,
         vs2 (unrolled_iter s)
         = _mm512_add_epi32 (vs2 s) (contribution (_mm512_loadu_si512 (buf s)))
         /\ vs2_1 (unrolled_iter s)
            = _mm512_add_epi32 (vs2_1 s)
                (contribution (_mm512_loadu_si512 (ptr_add (buf s) 64))))
  /\ _mm512_add_epi32 (vs2 s2) (vs2_1 s2)
     = fold_left (fun acc vbuf => _mm512_add_epi32 acc (contribution vbuf))
                 (sub_block_regs (buf st) m) (vs2 st)
  /\ (forall j : nat,
         (j < m)%nat ->
         (64 <= length (mem (ptr_add (buf st) (64 * Z.of_nat j))))%nat
         /\ sum_list (contribution (_mm512_loadu_si512
                                      (ptr_add (buf st) (64 * Z.of_nat j))))
            = weighted_bytes (mem (buf st)) j)
  /\ sum_list (_mm512_add_epi32 (vs2 s2) (vs2_1 s2))
     = sum2 st + sum_list (map (weighted_bytes (mem (buf st))) (seq 0 m))
  /\ (at_head (chunk st)
      /\ 0 <= sum2 (chunk st) < 2 ^ 16
      /\ len (chunk st) <= Z.of_nat (length (mem (buf (chunk st))))).
Proof.
  apply (dot2v_weights (init_vars 1 0 (Ptr (repeat xff 200)) 200)).
  - split; reflexivity.
  - cbn [sum2 init_vars]. lia.
  - cbn [len init_vars]. lia.
  - cbn [len buf mem init_vars]. rewrite repeat_length. lia.
Defined.

(** C5. No overflow: in a chunk (at most [NMAX] bytes) entered with sums in
    [0, BASE), every lane of the byte-sum, weighted and carry accumulators,
    computed over the integers, stays within [0, 2^32 - 1] at every state the
    chunk goes through, the shifted carry and the two last additions
    included, and so do the horizontal sums; hence the wrapping arithmetic of
    the machine computes the same states and the same reduced sums as the
    arithmetic over the integers.  In particular, on [2 * NMAX] bytes 0xFF the
    first two chunks, of 5504 bytes each, and the whole call leave the sums of
    the sequential recurrence. *)
Theorem no_lane_overflow (st : vars) :
  at_head st ->
  valid_state (adler st, sum2 st) ->
  64 <= len st ->
  len st <= Z.of_nat (length (mem (buf st))) ->
  let F := finish (L := ideal) (sub_blocks (L := ideal) (chunk_begin st)) in
  chunk_len (len st) <= NMAX
  /\ Forall accs_in_range (chunk_trace (L := ideal) st)
  /\ chunk_trace (L := machine) st = chunk_trace (L := ideal) st
  /\ 0 <= partial_hsum (L := ideal) (vs1 F) <= 2 ^ 32 - 1
  /\ 0 <= _mm512_reduce_add_epu32 (L := ideal) (vs2 F) <= 2 ^ 32 - 1
  /\ chunk (L := machine) st = chunk (L := ideal) st
  /\ (forall s1 s2 : Z,
         valid_state (s1, s2) ->
         let B := repeat xff (Z.to_nat (2 * NMAX)) in
         let st2 := chunk (chunk (init_vars s1 s2 (Ptr B) (2 * NMAX))) in
         len st2 = 2 * NMAX - 2 * 5504
         /\ (adler st2, sum2 st2) = adler_fold (s1, s2) (firstn (Z.to_nat (2 * 5504)) B)
         /\ vector_path tail_checksum s1 s2 (Ptr B) (2 * NMAX)
            = pack (adler_fold (s1, s2) B)).
Proof.
  intros Hh Hv Hlen Hbuf F.
  destruct (chunk_no_overflow st Hh Hv Hlen Hbuf) as (H1 & H2 & H3 & H4 & H5).
  fold F in H3, H4.
  destruct (chunk_len_spec (len st) Hlen) as (m & _ & _ & _ & Hm).
  split; [lia|].
  split; [exact H1 | split; [exact H2 |]].
  rewrite partial_hsum_ideal, reduce_add_ideal.
  split; [exact H3 | split; [exact H4 | split; [exact H5 |]]].
  clear. intros s1 s2 Hv B st2.
  assert (HB : length B = Z.to_nat (2 * NMAX)) by apply repeat_length.
  assert (E0 : chunk_len (2 * NMAX) = 5504) by reflexivity.
  assert (E1 : chunk_len (2 * NMAX - 5504) = 5504) by reflexivity.
  destruct (chunk_step (init_vars s1 s2 (Ptr B) (2 * NMAX)))
    as (A1 & A2 & A3 & A4 & A5);
    [apply at_head_init | exact Hv | cbn [len init_vars]; unfold NMAX; lia
     | cbn [len buf mem init_vars]; rewrite HB; unfold NMAX; lia |].
  cbn [len buf mem adler sum2 init_vars] in A3, A4, A5. rewrite E0 in A3, A4, A5.
  destruct (chunk_step _ A1 A2) as (_ & _ & C3 & _ & C5).
  { rewrite A3. unfold NMAX. lia. }
  { rewrite A3, A4, length_skipn, HB. unfold NMAX. lia. }
  fold st2 in C3, C5. rewrite A3, E1 in C3, C5.
  split; [lia | split].
  - rewrite C5, A5, A4, <- adler_fold_app, firstn_firstn_skipn. reflexivity.
  - rewrite vector_path_correct;
      [| apply tail_checksum_contract | exact Hv | rewrite HB; unfold NMAX; lia].
    rewrite <- HB, firstn_all. reflexivity.
Qed.

Lemma no_lane_overflow_witness :
  let st := init_vars 1 0 (Ptr (repeat xff 200)) 200 in
  let F := finish (L := ideal) (sub_blocks (L := ideal) (chunk_begin st)) in
  chunk_len (len st) <= NMAX
  /\ Forall accs_in_range (chunk_trace (L := ideal) st)
  /\ chunk_trace (L := machine) st = chunk_trace (L := ideal) st
  /\ 0 <= partial_hsum (L := ideal) (vs1 F) <= 2 ^ 32 - 1
  /\ 0 <= _mm512_reduce_add_epu32 (L := ideal) (vs2 F) <= 2 ^ 32 - 1
  /\ chunk (L := machine) st = chunk (L := ideal) st
  /\ (forall s1 s2 : Z,
         valid_state (s1, s2) ->
         let B := repeat xff (Z.to_nat (2 * NMAX)) in
         let st2 := chunk (chunk (init_vars s1 s2 (Ptr B) (2 * NMAX))) in
         len st2 = 2 * NMAX - 2 * 5504
         /\ (adler st2, sum2 st2) = adler_fold (s1, s2) (firstn (Z.to_nat (2 * 5504)) B)
         /\ vector_path tail_checksum s1 s2 (Ptr B) (2 * NMAX)
            = pack (adler_fold (s1, s2) B)).
Proof.
  apply (no_lane_overflow (init_vars 1 0 (Ptr (repeat xff 200)) 200)).
  - split; reflexivity.
  - vm_compute. repeat split; discriminate.
  - cbn [len init_vars]. lia.
  - cbn [len buf mem init_vars]. rewrite repeat_length. lia.
Defined.

(** ** The test vectors of the specification *)

Example wikipedia_checksum :
  vnni no_narrow 1 (Ptr wikipedia) 9 = 0x11E60398
  /\ vnni all_narrow 1 (Ptr wikipedia) 9 = 0x11E60398.
Proof. split; vm_compute; reflexivity. Qed.

Example empty_checksum : vnni no_narrow 1 (Ptr []) 0 = 1.
Proof. vm_compute. reflexivity. Qed.

(** [NMAX] is the largest length whose worst case fits 32 bits. *)
Example NMAX_largest :
  255 * NMAX * (NMAX + 1) / 2 + (NMAX + 1) * (BASE - 1) <= 2 ^ 32 - 1
  /\ 2 ^ 32 - 1 < 255 * (NMAX + 1) * (NMAX + 2) / 2 + (NMAX + 2) * (BASE - 1).
Proof. vm_compute. split; [discriminate | reflexivity]. Qed.

(** The boundary lengths, on bytes that are not all equal. *)
Definition ramp (n : nat) : list byte :=
  map (fun i => match Byte.of_N ((7 * N.of_nat i + 3) mod 256)%N with
                | Some b => b
                | None => x00
                end)
      (seq 0 n).

Example boundary_lengths :
  let B := ramp (Z.to_nat (2 * NMAX + 1)) in
  forallb (fun n => vnni no_narrow 1 (Ptr B) n =? narrow_checksum 1 (Ptr B) n)
          [0; 1; 15; 16; 31; 32; 63; 64; 65; 127; 128; 129;
           NMAX - 1; NMAX; NMAX + 1; 2 * NMAX + 1]
  = true.
Proof. vm_compute. reflexivity. Qed.




















(** * Further properties of the kernel *)

(** ** Sums that are not reduced *)

Lemma valid_split (st : Z * Z) : valid_state st -> split_state st.
Proof. unfold valid_state, split_state, BASE. lia. Qed.

Lemma unpack_split (adler : Z) : split_state (unpack adler).
Proof.
  unfold split_state, unpack. cbn [fst snd].
  change 65535 with (Z.ones 16). rewrite !Z.land_ones by lia.
  split; apply Z.mod_pos_bound; lia.
Qed.

(** The recurrence from sums that are congruent modulo [BASE]. *)
Lemma adler_fold_residues (st st' : Z * Z) (bs : list byte) :
  fst st mod BASE = fst st' mod BASE ->
  snd st mod BASE = snd st' mod BASE ->
  bs <> [] ->
  adler_fold st bs = adler_fold st' bs.
Proof.
  intros H1 H2 Hbs. destruct bs as [|b bs]; [contradiction|].
  unfold adler_fold. cbn [fold_left]. f_equal.
  unfold adler_step, BASE in *.
  assert (E : (fst st + byte_val b) mod 65521 = (fst st' + byte_val b) mod 65521) by lia.
  rewrite E. f_equal. lia.
Qed.

(** The outer loop from sums of sixteen bits, reduced or not. *)
Lemma chunk_loop_correct_wide (st : vars) :
  at_head st ->
  split_state (adler st, sum2 st) ->
  0 <= len st <= Z.of_nat (length (mem (buf st))) ->
  let st' := chunk_loop st in
  len st' = len st mod 64
  /\ buf st' = ptr_add (buf st) (len st - len st')
  /\ (adler st', sum2 st')
     = adler_fold (adler st, sum2 st)
                  (firstn (Z.to_nat (len st - len st')) (mem (buf st)))
  /\ (64 <= len st -> valid_state (adler st', sum2 st')).
Proof.
  intros Hh Hs Hlen st'.
  destruct (chunk_loop_iter _ st eq_refl ltac:(lia)) as [_ El]. fold st' in El.
  split; [exact El|]. subst st'. rewrite chunk_loop_eq in *.
  destruct (Z.leb_spec 64 (len st)) as [H64|H64].
  - destruct (chunk_frame st H64) as (Fb & Fl & Fh & Fa & Fs).
    destruct (chunk_len_spec (len st) H64) as (m & Hm & Hm1 & Hm2 & _).
    pose proof (chunk_correct_wide st Hh Hs H64 ltac:(lia)) as Hc.
    destruct (chunk_loop_correct _ (chunk st) eq_refl Fh)
      as (I1 & I2 & I3 & I4 & I5 & _).
    + split; assumption.
    + rewrite Fb, Fl, mem_ptr_add, length_skipn. lia.
    + cbv zeta in *. split; [|split; [|intros _; exact I5]].
      * rewrite I3, Fb, ptr_add_add by lia. f_equal. lia.
      * rewrite I4, Hc, <- adler_fold_app, Fb, mem_ptr_add, firstn_firstn_skipn.
        do 2 f_equal. lia.
  - replace (len st - len st) with 0 by lia. rewrite ptr_add_0.
    split; [reflexivity | split; [reflexivity | lia]].
Qed.

(** X1. On 64 bytes or more the function computes the sequential recurrence
    from whatever 32-bit value it is given: the sums split off at lines 34-35
    need not be reduced, and count as their residues modulo [BASE]; only the
    tail handler's contract is used. *)
Theorem adler32_avx512_vnni_unreduced
      (adler32_sse41 adler32_avx2 : Z -> ptr -> Z -> Z)
      (adler32_len_1 : Z -> ptr -> Z -> Z)
      (adler32_len_16 : Z -> ptr -> Z -> Z -> Z)
      (cfg : build) (adler0 : Z) (B : list byte) (n : Z) :
  tail_contract adler32_len_16 ->
  64 <= n <= Z.of_nat (length B) ->
  let X := firstn (Z.to_nat n) B in
  adler32_avx512_vnni adler32_sse41 adler32_avx2 adler32_len_1 adler32_len_16
                      cfg adler0 (Ptr B) n
  = pack (adler_fold (unpack adler0) X)
  /\ adler_fold (unpack adler0) X
     = adler_fold (fst (unpack adler0) mod BASE, snd (unpack adler0) mod BASE) X
  /\ valid_state (adler_fold (unpack adler0) X).
Proof.
  intros H16 Hn X.
  assert (HX : X <> []).
  { intros E. apply (f_equal (@length byte)) in E. subst X.
    rewrite length_firstn in E. simpl in E. lia. }
  split; [|split].
  - unfold adler32_avx512_vnni.
    destruct (Z.ltb_spec n 32); [lia|]. destruct (Z.ltb_spec n 64); [lia|].
    destruct (Z.eqb_spec n 1); [lia|]. destruct (Z.ltb_spec n 16); [lia|].
    rewrite !andb_false_r. cbn [is_null].
    assert (E : vector_path adler32_len_16 (Z.land adler0 65535)
                            (Z.land (Z.shiftr adler0 16) 65535) (Ptr B) n
                = pack (adler_fold (unpack adler0) X)).
    { unfold vector_path.
      destruct (chunk_loop_correct_wide
                  (init_vars (Z.land adler0 65535) (Z.land (Z.shiftr adler0 16) 65535)
                             (Ptr B) n))
        as (I1 & I2 & I3 & I4);
        [apply at_head_init | apply (unpack_split adler0)
         | cbn [len buf mem init_vars]; lia |].
      cbn [len buf mem adler sum2 init_vars] in I1, I2, I3, I4. cbv zeta in I1, I2, I3, I4.
      rewrite I2. cbn [ptr_add]. rewrite H16; [| apply I4; lia | lia |].
      - rewrite I3, <- adler_fold_app, firstn_firstn_skipn. unfold unpack, X.
        do 3 f_equal. lia.
      - rewrite length_skipn. lia. }
    destruct (negb (X86_AVX2_ADLER32 cfg) && negb (X86_SSE41_ADLER32 cfg)); exact E.
  - apply adler_fold_residues; [| | exact HX]; cbn [fst snd];
      rewrite Z.mod_mod; unfold BASE; lia.
  - apply adler_fold_reduced. exact HX.
Qed.

Lemma adler32_avx512_vnni_unreduced_witness :
  let X := firstn (Z.to_nat 200) (repeat xff 200) in
  vnni no_narrow 0xFFFFFFFF (Ptr (repeat xff 200)) 200
  = pack (adler_fold (unpack 0xFFFFFFFF) X)
  /\ adler_fold (unpack 0xFFFFFFFF) X
     = adler_fold (fst (unpack 0xFFFFFFFF) mod BASE, snd (unpack 0xFFFFFFFF) mod BASE) X
  /\ valid_state (adler_fold (unpack 0xFFFFFFFF) X).
Proof.
  apply (adler32_avx512_vnni_unreduced
           narrow_checksum narrow_checksum tail_checksum_1 tail_checksum
           no_narrow 0xFFFFFFFF (repeat xff 200) 200).
  - intros s1 s2 B n _ _ _. reflexivity.
  - rewrite repeat_length. lia.
Defined.

(** X2. No lane overflows from sums that are not reduced either: in the chunk
    that starts from any sums of sixteen bits, which is all lines 34-35 can
    produce, the run over the integers keeps every lane within
    [0, 2^32 - 1] and the machine computes the same states and sums. *)
Theorem no_lane_overflow_unreduced (adler0 : Z) (B : list byte) (n : Z) :
  64 <= n <= Z.of_nat (length B) ->
  let st := init_vars (Z.land adler0 0xffff) (Z.land (Z.shiftr adler0 16) 0xffff)
                      (Ptr B) n in
  let F := finish (L := ideal) (sub_blocks (L := ideal) (chunk_begin st)) in
  Forall accs_in_range (chunk_trace (L := ideal) st)
  /\ chunk_trace (L := machine) st = chunk_trace (L := ideal) st
  /\ 0 <= partial_hsum (L := ideal) (vs1 F) <= 2 ^ 32 - 1
  /\ 0 <= _mm512_reduce_add_epu32 (L := ideal) (vs2 F) <= 2 ^ 32 - 1
  /\ chunk (L := machine) st = chunk (L := ideal) st.
Proof.
  intros Hn st F.
  destruct (chunk_no_overflow_wide st) as (H1 & H2 & H3 & H4 & H5);
    [apply at_head_init | apply (unpack_split adler0)
     | cbn [len st init_vars]; lia | cbn [len buf mem st init_vars]; lia |].
  fold F in H3, H4. rewrite partial_hsum_ideal, reduce_add_ideal.
  repeat split; assumption || lia.
Qed.

Lemma no_lane_overflow_unreduced_witness :
  let st := init_vars (Z.land 0xFFFFFFFF 0xffff) (Z.land (Z.shiftr 0xFFFFFFFF 16) 0xffff)
                      (Ptr (repeat xff (Z.to_nat 6000))) 6000 in
  let F := finish (L := ideal) (sub_blocks (L := ideal) (chunk_begin st)) in
  Forall accs_in_range (chunk_trace (L := ideal) st)
  /\ chunk_trace (L := machine) st = chunk_trace (L := ideal) st
  /\ 0 <= partial_hsum (L := ideal) (vs1 F) <= 2 ^ 32 - 1
  /\ 0 <= _mm512_reduce_add_epu32 (L := ideal) (vs2 F) <= 2 ^ 32 - 1
  /\ chunk (L := machine) st = chunk (L := ideal) st.
Proof.
  apply (no_lane_overflow_unreduced 0xFFFFFFFF (repeat xff (Z.to_nat 6000)) 6000).
  rewrite repeat_length. lia.
Defined.

(** ** The partial horizontal sum *)

Lemma fold_wrap_mod (l : list Z) (a : Z) :
  fold_left (fun acc y => wrap (LaneArith := machine) (acc + y)) l (a mod 2 ^ 32)
  = (a + sum_list l) mod 2 ^ 32.
Proof.
  revert a. induction l as [|x l IH]; intros a; cbn [fold_left sum_list].
  - f_equal. lia.
  - unfold wrap at 2, machine. rewrite Z.add_mod_idemp_l by lia.
    rewrite IH. f_equal. lia.
Qed.

Lemma reduce_add_mod (v : m512i) :
  _mm512_reduce_add_epu32 v = sum_list v mod 2 ^ 32.
Proof.
  unfold _mm512_reduce_add_epu32. change 0 with (0 mod 2 ^ 32) at 1.
  rewrite fold_wrap_mod. reflexivity.
Qed.

Lemma partial_hsum_mod (v : m512i) : partial_hsum v = even_sum v mod 2 ^ 32.
Proof.
  unfold partial_hsum. rewrite fold_left_map_wrap. change 0 with (0 mod 2 ^ 32) at 1.
  rewrite fold_wrap_mod. reflexivity.
Qed.

Lemma lane_add32 (a b : m512i) (i : nat) :
  length a = length b -> (i < length a)%nat ->
  lane (_mm512_add_epi32 a b) i = wrap (lane a i + lane b i).
Proof.
  unfold lane, _mm512_add_epi32. revert b i.
  induction a as [|x a IH]; intros [|y b] i H Hi; simpl in H, Hi; try lia.
  destruct i; cbn [zip_with nth]; [reflexivity | apply IH; lia].
Qed.

Lemma odd_zero_byte_sums (a : m512i) : odd_zero (byte_sums a).
Proof.
  split; [reflexivity|]. intros j Hj. unfold byte_sums, lane.
  do 8 (destruct j as [|j]; [reflexivity|]). lia.
Qed.

Lemma odd_zero_add (a b : m512i) :
  odd_zero a -> odd_zero b -> odd_zero (_mm512_add_epi32 a b).
Proof.
  intros [La Ha] [Lb Hb]. split.
  - unfold _mm512_add_epi32. rewrite zip_with_length; congruence.
  - intros j Hj. rewrite lane_add32 by lia. rewrite Ha, Hb by exact Hj. reflexivity.
Qed.

Lemma odd_zero_fold (bl : list m512i) :
  forall s1 s2 s3 : m512i,
    odd_zero s1 -> odd_zero (fst (fst (fold_left one_sub_block bl (s1, s2, s3)))).
Proof.
  induction bl as [|b bl IH]; intros s1 s2 s3 H; [exact H|].
  cbn [fold_left one_sub_block]. apply IH. rewrite sad_zero.
  apply odd_zero_add; [exact H | apply odd_zero_byte_sums].
Qed.

Lemma odd_zero_sums (v : m512i) : odd_zero v -> even_sum v = sum_list v.
Proof.
  intros [Hl H].
  do 16 (destruct v as [|? v]; [discriminate Hl|]). destruct v; [|discriminate Hl].
  pose proof (H 0%nat ltac:(lia)) as H0. pose proof (H 1%nat ltac:(lia)) as H1.
  pose proof (H 2%nat ltac:(lia)) as H2. pose proof (H 3%nat ltac:(lia)) as H3.
  pose proof (H 4%nat ltac:(lia)) as H4. pose proof (H 5%nat ltac:(lia)) as H5.
  pose proof (H 6%nat ltac:(lia)) as H6. pose proof (H 7%nat ltac:(lia)) as H7.
  unfold even_sum, lane in *. cbn in *. lia.
Qed.

Lemma odd_zero_head (x : Z) : odd_zero (_mm512_zextsi128_si512 (_mm_cvtsi32_si128 x)).
Proof.
  split; [reflexivity|]. intros j Hj. unfold lane.
  do 8 (destruct j as [|j]; [reflexivity|]). lia.
Qed.

(** X3. Why the partial horizontal sum is enough (lines 53-59 and 120): the
    sums enter in lane 0 and the sums of absolute differences land in the even
    lanes, so at the end of a chunk the odd lanes of the byte-sum accumulator
    are zero, whatever the bytes and the sums, and [partial_hsum] returns what
    the full horizontal sum of the sixteen lanes returns. *)
Theorem partial_hsum_suffices (st : vars) :
  at_head st ->
  64 <= len st ->
  let F := finish (sub_blocks (chunk_begin st)) in
  length (vs1 F) = 16%nat
  /\ (forall j : nat, (j < 8)%nat -> lane (vs1 F) (2 * j + 1) = 0)
  /\ partial_hsum (vs1 F) = _mm512_reduce_add_epu32 (vs1 F).
Proof.
  intros [H1 _] Hlen F.
  assert (Ho : odd_zero (vs1 F)).
  { pose proof (sub_blocks_fold st Hlen) as E. cbv zeta in E.
    apply (f_equal (fun t => fst (fst t))) in E. cbn [fst snd] in E.
    subst F. cbn [vs1 finish finish_second finish_carry finish_shift]. rewrite E.
    apply odd_zero_fold. rewrite H1. apply odd_zero_head. }
  split; [apply Ho | split; [apply Ho |]].
  rewrite partial_hsum_mod, reduce_add_mod, (odd_zero_sums _ Ho). reflexivity.
Qed.

Lemma partial_hsum_suffices_witness :
  let st := init_vars 1 0 (Ptr (repeat xff 200)) 200 in
  let F := finish (sub_blocks (chunk_begin st)) in
  length (vs1 F) = 16%nat
  /\ (forall j : nat, (j < 8)%nat -> lane (vs1 F) (2 * j + 1) = 0)
  /\ partial_hsum (vs1 F) = _mm512_reduce_add_epu32 (vs1 F).
Proof.
  apply (partial_hsum_suffices (init_vars 1 0 (Ptr (repeat xff 200)) 200)).
  - split; reflexivity.
  - cbn [len init_vars]. lia.
Defined.

(** ** The schedule of the chunks *)

Lemma unrolled_loop_iter (n : nat) :
  forall s : vars,
    k s = 128 * Z.of_nat n -> unrolled_loop s = Nat.iter n unrolled_iter s.
Proof.
  induction n as [|n IH]; intros s Hn; rewrite unrolled_loop_eq.
  - destruct (Z.leb_spec 128 (k s)); [lia | reflexivity].
  - destruct (Z.leb_spec 128 (k s)); [|lia].
    rewrite Nat.iter_succ_r. apply IH. rewrite k_unrolled_iter. lia.
Qed.

(** X4. A full chunk: while [NMAX] bytes or more remain, a chunk is 5504 bytes,
    [NMAX] rounded down to a multiple of 64, which is 43 iterations of the
    unrolled loop with nothing to peel; so the remainder peeling of lines
    79-89 is only ever taken in a chunk that starts with fewer than [NMAX]
    bytes left. *)
Theorem full_chunk_shape (st : vars) :
  64 <= len st ->
  let s0 := chunk_begin st in
  (NMAX <= len st ->
   k s0 = 5504 /\ peel s0 = s0
   /\ sub_blocks s0 = Nat.iter 43 unrolled_iter s0
   /\ len (chunk st) = len st - 5504
   /\ buf (chunk st) = ptr_add (buf st) 5504)
  /\ (Z.rem (k s0) 128 <> 0 -> len st < NMAX /\ Z.odd (len st / 64) = true).
Proof.
  intros Hlen s0.
  assert (Hfull : NMAX <= len st -> k s0 = 5504).
  { intros H. subst s0. cbn [k chunk_begin]. unfold NMAX in *.
    destruct (Z.ltb_spec (len st) 5552); [lia | reflexivity]. }
  split.
  - intros H. pose proof (Hfull H) as Hk.
    assert (Hp : peel s0 = s0) by (unfold peel; rewrite Hk; reflexivity).
    destruct (chunk_frame st Hlen) as (Fb & Fl & _).
    assert (Ek : chunk_len (len st) = 5504) by exact Hk.
    rewrite Ek in Fb, Fl.
    split; [exact Hk | split; [exact Hp | split; [| split; assumption]]].
    unfold sub_blocks. rewrite Hp. apply (unrolled_loop_iter 43). rewrite Hk. reflexivity.
  - intros Hr.
    assert (Hlt : len st < NMAX).
    { destruct (Z.lt_ge_cases (len st) NMAX) as [Hl|Hl]; [exact Hl|].
      rewrite (Hfull Hl) in Hr. contradiction Hr. reflexivity. }
    split; [exact Hlt|]. subst s0. cbn [k chunk_begin] in Hr.
    destruct (Z.ltb_spec (len st) NMAX); [|lia].
    rewrite !Z.rem_mod_nonneg in Hr by lia.
    rewrite Z.odd_spec. exists (len st / 128). lia.
Qed.

Lemma full_chunk_shape_witness :
  let st := init_vars 1 0 (Ptr (repeat xff (Z.to_nat 6000))) 6000 in
  let s0 := chunk_begin st in
  (NMAX <= len st ->
   k s0 = 5504 /\ peel s0 = s0
   /\ sub_blocks s0 = Nat.iter 43 unrolled_iter s0
   /\ len (chunk st) = len st - 5504
   /\ buf (chunk st) = ptr_add (buf st) 5504)
  /\ (Z.rem (k s0) 128 <> 0 -> len st < NMAX /\ Z.odd (len st / 64) = true).
Proof.
  apply (full_chunk_shape (init_vars 1 0 (Ptr (repeat xff (Z.to_nat 6000))) 6000)).
  cbn [len init_vars]. lia.
Defined.

Lemma chunk_count_small (n : Z) : n < 64 -> chunk_count n = 0%nat.
Proof.
  intros H. unfold chunk_count, NMAX. destruct (Z.ltb_spec n 5552); [|lia].
  cbv zeta. destruct (Z.leb_spec 64 (n - 5504 * 0)); [lia | reflexivity].
Qed.

Lemma chunk_count_short (n : Z) : 64 <= n < NMAX -> chunk_count n = 1%nat.
Proof.
  intros H. unfold chunk_count, NMAX in *. destruct (Z.ltb_spec n 5552); [|lia].
  cbv zeta. destruct (Z.leb_spec 64 (n - 5504 * 0)); [reflexivity | lia].
Qed.

Lemma chunk_count_full (n : Z) :
  NMAX <= n -> chunk_count n = S (chunk_count (n - 5504)).
Proof.
  intros H. unfold chunk_count, NMAX in *. cbv zeta.
  destruct (Z.ltb_spec n 5552); [lia|].
  destruct (Z.ltb_spec (n - 5504) 5552).
  - replace ((n - 5552) / 5504 + 1) with 1 by lia.
    replace (n - 5504 - 5504 * 0) with (n - 5504 * 1) by lia.
    destruct (64 <=? n - 5504 * 1); reflexivity.
  - replace ((n - 5552) / 5504 + 1) with ((n - 5504 - 5552) / 5504 + 1 + 1) by lia.
    replace (n - 5504 * ((n - 5504 - 5552) / 5504 + 1 + 1))
      with (n - 5504 - 5504 * ((n - 5504 - 5552) / 5504 + 1)) by lia.
    destruct (64 <=? _); lia.
Qed.

Lemma chunk_loop_count (m : nat) :
  forall st : vars,
    Z.to_nat (len st) = m ->
    chunk_loop st = Nat.iter (chunk_count (len st)) chunk st.
Proof.
  induction m as [m IH] using (well_founded_induction lt_wf).
  intros st Hm. rewrite chunk_loop_eq.
  destruct (Z.leb_spec 64 (len st)) as [H64|H64].
  - pose proof (chunk_len_eq st) as El.
    destruct (chunk_len_spec (len st) H64) as (j & Hj & Hj1 & Hj2 & Hj3).
    destruct (Z.lt_ge_cases (len st) NMAX) as [Hs|Hf].
    + rewrite chunk_count_short by lia. rewrite chunk_loop_eq.
      destruct (Z.leb_spec 64 (len (chunk st))); [|reflexivity].
      unfold NMAX in *. lia.
    + assert (Ek : chunk_len (len st) = 5504).
      { unfold chunk_len, NMAX in *. destruct (Z.ltb_spec (len st) 5552); [lia | reflexivity]. }
      rewrite chunk_count_full by exact Hf. rewrite Nat.iter_succ_r.
      rewrite (IH (Z.to_nat (len (chunk st))) ltac:(lia) (chunk st) eq_refl).
      rewrite El, Ek. reflexivity.
  - rewrite chunk_count_small by lia. reflexivity.
Qed.

(** X5. The number of reductions: the outer loop runs [chunk_count n] times on
    [n] bytes, every chunk but the last being a full one of 5504 bytes; a
    chunk that starts with fewer than [NMAX] bytes left takes all the whole
    sub-blocks that remain and is the last. *)
Theorem chunk_schedule (st : vars) :
  0 <= len st ->
  chunk_loop st = Nat.iter (chunk_count (len st)) chunk st
  /\ Z.of_nat (chunk_count (len st)) <= len st / 64
  /\ (64 <= len st < NMAX ->
      chunk_loop st = chunk st /\ len (chunk st) = len st mod 64)
  /\ (NMAX <= len st ->
      chunk_loop st = chunk_loop (chunk st) /\ len (chunk st) = len st - 5504
      /\ chunk_count (len st) = S (chunk_count (len st - 5504))).
Proof.
  intros Hlen. pose proof (chunk_loop_count _ st eq_refl) as E.
  split; [exact E | split; [| split]].
  - unfold chunk_count, NMAX. cbv zeta.
    destruct (Z.ltb_spec (len st) 5552);
      match goal with |- context [64 <=? ?r] => destruct (Z.leb_spec 64 r) end; lia.
  - intros H. rewrite E, chunk_count_short by exact H. split; [reflexivity|].
    rewrite chunk_len_eq. destruct (chunk_len_spec (len st) ltac:(lia)) as (j & Hj & _ & _ & Hj3).
    unfold NMAX in *. lia.
  - intros H. assert (H64 : 64 <= len st) by (unfold NMAX in H; lia).
    split; [| split; [| apply chunk_count_full; exact H]].
    + rewrite chunk_loop_eq at 1. destruct (Z.leb_spec 64 (len st)); [reflexivity | lia].
    + rewrite chunk_len_eq. unfold chunk_len, NMAX in *.
      destruct (Z.ltb_spec (len st) 5552); [lia | reflexivity].
Qed.

Lemma chunk_schedule_witness :
  let st := init_vars 1 0 (Ptr (repeat xff (Z.to_nat 12000))) 12000 in
  chunk_loop st = Nat.iter (chunk_count (len st)) chunk st
  /\ Z.of_nat (chunk_count (len st)) <= len st / 64
  /\ (64 <= len st < NMAX ->
      chunk_loop st = chunk st /\ len (chunk st) = len st mod 64)
  /\ (NMAX <= len st ->
      chunk_loop st = chunk_loop (chunk st) /\ len (chunk st) = len st - 5504
      /\ chunk_count (len st) = S (chunk_count (len st - 5504))).
Proof.
  apply (chunk_schedule (init_vars 1 0 (Ptr (repeat xff (Z.to_nat 12000))) 12000)).
  cbn [len init_vars]. lia.
Defined.

(** ** A buffer fed in pieces *)

Lemma sum_list_nonneg (l : list Z) : Forall (fun n => 0 <= n) l -> 0 <= sum_list l.
Proof. induction 1; cbn [sum_list]; lia. Qed.

Lemma feed_correct (f : Z -> ptr -> Z -> Z) (sizes : list Z) :
  (forall (adler : Z) (B : list byte) (n : Z),
      valid_state (unpack adler) -> 0 <= n <= Z.of_nat (length B) ->
      f adler (Ptr B) n = pack (adler_fold (unpack adler) (firstn (Z.to_nat n) B))) ->
  forall (adler : Z) (B : list byte),
    valid_state (unpack adler) ->
    Forall (fun n => 0 <= n) sizes ->
    sum_list sizes <= Z.of_nat (length B) ->
    sizes <> [] ->
    feed f adler (Ptr B) sizes
    = pack (adler_fold (unpack adler) (firstn (Z.to_nat (sum_list sizes)) B)).
Proof.
  intros Hf. induction sizes as [|n rest IH]; intros adler B Hv Hs Hsum Hne;
    [contradiction|].
  inversion Hs as [|? ? Hn Hrest]; subst. cbn [sum_list] in *.
  pose proof (sum_list_nonneg _ Hrest) as Hr.
  cbn [feed ptr_add]. rewrite Hf by (assumption || lia).
  pose proof (adler_fold_valid _ (firstn (Z.to_nat n) B) Hv) as Hv'.
  destruct rest as [|n' rest'].
  - cbn [feed sum_list]. do 3 f_equal. lia.
  - rewrite IH; [| rewrite unpack_pack; exact Hv' | exact Hrest
                 | rewrite length_skipn; lia | discriminate].
    rewrite unpack_pack by exact Hv'.
    rewrite <- adler_fold_app, firstn_firstn_skipn. do 3 f_equal. lia.
Qed.

(** X6. Streaming: a buffer fed to the function in any number of pieces of any
    sizes, each call seeded with the result of the one before, gives the
    checksum of one call over all the bytes fed (the delegated routines
    satisfying their contract). *)
Theorem adler32_avx512_vnni_streaming
      (adler32_sse41 adler32_avx2 : Z -> ptr -> Z -> Z)
      (adler32_len_1 : Z -> ptr -> Z -> Z)
      (adler32_len_16 : Z -> ptr -> Z -> Z -> Z)
      (cfg : build) (adler0 : Z) (B : list byte) (sizes : list Z) :
  narrow_contract 32 adler32_sse41 ->
  narrow_contract 64 adler32_avx2 ->
  len_1_contract adler32_len_1 ->
  tail_contract adler32_len_16 ->
  valid_state (unpack adler0) ->
  Forall (fun n => 0 <= n) sizes ->
  sum_list sizes <= Z.of_nat (length B) ->
  sizes <> [] ->
  let f := adler32_avx512_vnni adler32_sse41 adler32_avx2 adler32_len_1
                               adler32_len_16 cfg in
  feed f adler0 (Ptr B) sizes = f adler0 (Ptr B) (sum_list sizes).
Proof.
  intros Hsse Havx H1 H16 Hv Hs Hsum Hne f.
  assert (Hf : forall (adler : Z) (B : list byte) (n : Z),
             valid_state (unpack adler) -> 0 <= n <= Z.of_nat (length B) ->
             f adler (Ptr B) n
             = pack (adler_fold (unpack adler) (firstn (Z.to_nat n) B))).
  { intros a B' n Ha Hn. apply vnni_correct; assumption. }
  rewrite (feed_correct f sizes Hf) by assumption.
  rewrite Hf; [reflexivity | exact Hv |]. pose proof (sum_list_nonneg _ Hs). lia.
Qed.

Lemma adler32_avx512_vnni_streaming_witness :
  feed (vnni no_narrow) 1 (Ptr (repeat xff 200)) [1; 70; 0; 129]
  = vnni no_narrow 1 (Ptr (repeat xff 200)) (sum_list [1; 70; 0; 129]).
Proof.
  apply (adler32_avx512_vnni_streaming
           narrow_checksum narrow_checksum tail_checksum_1 tail_checksum
           no_narrow 1 (repeat xff 200) [1; 70; 0; 129]).
  - intros adler B n _ _ _. reflexivity.
  - intros adler B n _ _ _. reflexivity.
  - intros s1 s2 B _ _. reflexivity.
  - intros s1 s2 B n _ _ _. reflexivity.
  - vm_compute. repeat split; discriminate.
  - repeat constructor; lia.
  - rewrite repeat_length. cbn [sum_list]. lia.
  - discriminate.
Defined.

(** ** Short lengths *)

Lemma vector_path_short (adler32_len_16 : Z -> ptr -> Z -> Z -> Z)
      (s1 s2 : Z) (p : ptr) (n : Z) :
  n < 64 -> vector_path adler32_len_16 s1 s2 p n = adler32_len_16 s1 p n s2.
Proof.
  intros Hn. unfold vector_path. rewrite chunk_loop_eq. cbn [len init_vars].
  destruct (Z.leb_spec 64 n); [lia | reflexivity].
Qed.

(** X7. Below 64 bytes the vector loop never runs, and the function is one of
    the routines it delegates to: [adler32_sse41] below 32 bytes and
    [adler32_avx2] below 64 when they are compiled in, each on the packed
    checksum; otherwise the scalar routines on the split sums, with the test
    for one byte before the test for a NULL buffer, which is therefore not
    made at length 1 -- nor at any length when a narrower kernel is compiled
    in. *)
Theorem short_length_dispatch
      (adler32_sse41 adler32_avx2 : Z -> ptr -> Z -> Z)
      (adler32_len_1 : Z -> ptr -> Z -> Z)
      (adler32_len_16 : Z -> ptr -> Z -> Z -> Z)
      (cfg : build) (adler0 : Z) (p : ptr) (n : Z) :
  n < 64 ->
  let lo := Z.land adler0 0xffff in
  let hi := Z.land (Z.shiftr adler0 16) 0xffff in
  let r := adler32_avx512_vnni adler32_sse41 adler32_avx2 adler32_len_1
                               adler32_len_16 cfg adler0 p n in
  (X86_SSE41_ADLER32 cfg = true -> n < 32 -> r = adler32_sse41 adler0 p n)
  /\ (X86_AVX2_ADLER32 cfg = true ->
      X86_SSE41_ADLER32 cfg = false \/ 32 <= n -> r = adler32_avx2 adler0 p n)
  /\ (X86_SSE41_ADLER32 cfg = true -> X86_AVX2_ADLER32 cfg = false -> 32 <= n ->
      r = adler32_len_16 lo p n hi)
  /\ (X86_SSE41_ADLER32 cfg = false -> X86_AVX2_ADLER32 cfg = false ->
      (n = 1 -> r = adler32_len_1 lo p hi)
      /\ (n <> 1 -> p = NULL -> r = 1)
      /\ (n <> 1 -> p <> NULL -> r = adler32_len_16 lo p n hi)).
Proof.
  intros Hn lo hi r. subst r. unfold adler32_avx512_vnni.
  destruct (Z.ltb_spec n 64); [|lia].
  split; [|split; [|split]].
  - intros -> H32. destruct (Z.ltb_spec n 32); [reflexivity | lia].
  - intros -> Hc. destruct (X86_SSE41_ADLER32 cfg); cbn [andb].
    + destruct (Z.ltb_spec n 32); [|reflexivity]. destruct Hc; [discriminate | lia].
    + reflexivity.
  - intros -> -> H32. cbn [andb negb]. destruct (Z.ltb_spec n 32); [lia|].
    apply vector_path_short. exact Hn.
  - intros -> ->. cbn [andb negb]. split; [|split].
    + intros ->. reflexivity.
    + intros H1 ->. destruct (Z.eqb_spec n 1); [contradiction | reflexivity].
    + intros H1 Hp. destruct (Z.eqb_spec n 1); [contradiction|].
      destruct p; [contradiction Hp; reflexivity|]. cbn [is_null].
      destruct (Z.ltb_spec n 16); [reflexivity|].
      apply vector_path_short. exact Hn.
Qed.

Lemma short_length_dispatch_witness :
  let lo := Z.land 1 0xffff in
  let hi := Z.land (Z.shiftr 1 16) 0xffff in
  let r := vnni no_narrow 1 NULL 1 in
  (X86_SSE41_ADLER32 no_narrow = true -> 1 < 32 -> r = narrow_checksum 1 NULL 1)
  /\ (X86_AVX2_ADLER32 no_narrow = true ->
      X86_SSE41_ADLER32 no_narrow = false \/ 32 <= 1 -> r = narrow_checksum 1 NULL 1)
  /\ (X86_SSE41_ADLER32 no_narrow = true -> X86_AVX2_ADLER32 no_narrow = false ->
      32 <= 1 -> r = tail_checksum lo NULL 1 hi)
  /\ (X86_SSE41_ADLER32 no_narrow = false -> X86_AVX2_ADLER32 no_narrow = false ->
      (1 = 1 -> r = tail_checksum_1 lo NULL hi)
      /\ (1 <> 1 -> NULL = NULL -> r = 1)
      /\ (1 <> 1 -> NULL <> NULL -> r = tail_checksum lo NULL 1 hi)).
Proof.
  apply (short_length_dispatch
           narrow_checksum narrow_checksum tail_checksum_1 tail_checksum
           no_narrow 1 NULL 1).
  lia.
Defined.

(** ** What the loop reads *)

(** X8. The footprint of the vector loop: on [n] bytes it advances the pointer
    by [n - n mod 64] bytes, leaves [n mod 64] for the tail handler, and its
    sums depend on these first [n - n mod 64] bytes only: two buffers that
    agree on them give the same sums, whatever their last [n mod 64] bytes
    and whatever follows. *)
Theorem loop_footprint (adler0 : Z) (B B' : list byte) (n : Z) :
  0 <= n <= Z.of_nat (length B) ->
  n <= Z.of_nat (length B') ->
  firstn (Z.to_nat (n - n mod 64)) B = firstn (Z.to_nat (n - n mod 64)) B' ->
  let lo := Z.land adler0 0xffff in
  let hi := Z.land (Z.shiftr adler0 16) 0xffff in
  let st := chunk_loop (init_vars lo hi (Ptr B) n) in
  let st' := chunk_loop (init_vars lo hi (Ptr B') n) in
  len st = n mod 64
  /\ buf st = ptr_add (Ptr B) (n - n mod 64)
  /\ (adler st, sum2 st) = adler_fold (lo, hi) (firstn (Z.to_nat (n - n mod 64)) B)
  /\ adler st' = adler st /\ sum2 st' = sum2 st /\ len st' = len st.
Proof.
  intros Hn Hn' HB lo hi st st'.
  destruct (chunk_loop_correct_wide (init_vars lo hi (Ptr B) n))
    as (I1 & I2 & I3 & _);
    [apply at_head_init | apply (unpack_split adler0) | cbn [len buf mem init_vars]; lia |].
  destruct (chunk_loop_correct_wide (init_vars lo hi (Ptr B') n))
    as (J1 & J2 & J3 & _);
    [apply at_head_init | apply (unpack_split adler0) | cbn [len buf mem init_vars]; lia |].
  cbv zeta in *. fold st in I1, I2, I3. fold st' in J1, J2, J3.
  cbn [len buf mem adler sum2 init_vars] in I1, I2, I3, J1, J2, J3.
  rewrite I1 in I2, I3. rewrite J1 in J3. rewrite <- HB, <- I3 in J3.
  split; [exact I1 | split; [exact I2 | split; [exact I3 |]]].
  split; [congruence | split; [congruence | lia]].
Qed.

Lemma loop_footprint_witness :
  let lo := Z.land 1 0xffff in
  let hi := Z.land (Z.shiftr 1 16) 0xffff in
  let st := chunk_loop (init_vars lo hi (Ptr (repeat xff 200)) 200) in
  let st' := chunk_loop (init_vars lo hi (Ptr (repeat xff 192 ++ repeat x00 8)) 200) in
  len st = 200 mod 64
  /\ buf st = ptr_add (Ptr (repeat xff 200)) (200 - 200 mod 64)
  /\ (adler st, sum2 st)
     = adler_fold (lo, hi) (firstn (Z.to_nat (200 - 200 mod 64)) (repeat xff 200))
  /\ adler st' = adler st /\ sum2 st' = sum2 st /\ len st' = len st.
Proof.
  apply (loop_footprint 1 (repeat xff 200) (repeat xff 192 ++ repeat x00 8) 200).
  - rewrite repeat_length. lia.
  - rewrite length_app, !repeat_length. lia.
  - vm_compute. reflexivity.
Defined.

(** ** Splitting and packing *)

(** X9. The split of lines 34-35 and the packing [sum2 << 16 | sum1] are
    inverse of each other: a 32-bit checksum is the packing of its two
    halves, and sums of sixteen bits, reduced or not, pack into 32 bits and
    come back as they were. *)
Theorem split_round_trip (adler0 : Z) (st : Z * Z) :
  0 <= adler0 < 2 ^ 32 ->
  split_state st ->
  pack (unpack adler0) = adler0
  /\ split_state (unpack adler0)
  /\ unpack (pack st) = st
  /\ 0 <= pack st < 2 ^ 32.
Proof.
  intros Ha [H1 H2]. destruct st as [s1 s2]. cbn [fst snd] in H1, H2.
  pose proof (unpack_split adler0) as Hu.
  split; [|split; [exact Hu | split]].
  - destruct Hu as [U1 U2]. unfold unpack in *. cbn [fst snd] in U1, U2.
    rewrite pack_add by lia.
    change 65535 with (Z.ones 16). rewrite !Z.land_ones, Z.shiftr_div_pow2 by lia. lia.
  - rewrite pack_add by lia. unfold unpack.
    change 65535 with (Z.ones 16). rewrite !Z.land_ones, Z.shiftr_div_pow2 by lia.
    f_equal; lia.
  - rewrite pack_add by lia. lia.
Qed.

Lemma split_round_trip_witness :
  pack (unpack 0xFFFFFFFF) = 0xFFFFFFFF
  /\ split_state (unpack 0xFFFFFFFF)
  /\ unpack (pack (65535, 65535)) = (65535, 65535)
  /\ 0 <= pack (65535, 65535) < 2 ^ 32.
Proof.
  apply (split_round_trip 0xFFFFFFFF (65535, 65535)).
  - lia.
  - unfold split_state. cbn [fst snd]. lia.
Defined.
